(** * websocket_server: the Manager, its Clients and the event router

    A shallow embedding of the Go sources (manager.go, client.go, event.go)
    and the properties of the connection registry, the admission endpoint,
    the read and write loops and the event dispatch.

    Conventions of the embedding:
    - a [*Client] is a record carrying its address; the fields of a Client
      are never reassigned after [NewClient], so the record is the object and
      [addr] is its pointer identity (the key of [ClientList]);
    - a Go [error] is [option error], [None] being [nil];
    - every method that touches the outside world (the socket, the HTTP
      response, the log, stdout) appends an [effect] to the trace of the
      [World], in program order;
    - what the outside world answers (the result of a read, of a write, of
      the handshake, the clock) is an input of the function that asks;
    - [Manager.Lock]/[Unlock] make [addClient] and [removeClient] atomic;
      they are the atomic steps of the interleaving semantics below. *)

From stdpp Require Import gmap strings list fin_maps.
From Stdlib Require Import ZArith DecimalString.
From Stdlib.Strings Require Import Byte.

Local Open Scope Z_scope.

(** ** time.Duration: int64 nanoseconds *)

Module Time.

Definition wrap64 (z : Z) : Z := (z + 2 ^ 63) mod 2 ^ 64 - 2 ^ 63.

(** Go's [*] and [/] on int64: product wraps around, quotient truncates
    towards zero. *)
Definition mul (a b : Z) : Z := wrap64 (a * b).
Definition div (a b : Z) : Z := wrap64 (Z.quot a b).

Definition Nanosecond : Z := 1.
Definition Microsecond : Z := mul 1000 Nanosecond.
Definition Millisecond : Z := mul 1000 Microsecond.
Definition Second : Z := mul 1000 Millisecond.

End Time.

(** pongWait is how long we will await a pong response from client *)
Definition pongWait : Z := Time.mul 10 Time.Second.

(** pingInterval = (pongWait * 9) / 10 *)
Definition pingInterval : Z := Time.div (Time.mul pongWait 9) 10.

(** The retention period handed to NewRetentionMap by NewManager. *)
Definition otpRetention : Z := Time.mul 20 Time.Second.

(** ** Values *)

Abbreviation ClientPtr := positive (only parsing).
Abbreviation Conn := positive (only parsing).

(** Event is the message sent over the websocket; [Payload] is a
    json.RawMessage, the bytes of the payload as they came. *)
Record Event := mkEvent {
  Type_ : string;
  Payload : list byte;
}.

(** SendMessageEvent is the payload sent in the send_message event. *)
Record SendMessageEvent := mkSendMessageEvent {
  Message : string;
  From_ : string;
}.

Definition EventSendMessage : string := "send_message".

(** websocket close codes and frame kinds (gorilla/websocket). *)
Definition CloseGoingAway : Z := 1001.
Definition CloseAbnormalClosure : Z := 1006.
Definition TextMessage : Z := 1.
Definition CloseMessage : Z := 8.
Definition PingMessage : Z := 9.

Definition StatusOK : Z := 200.
Definition StatusBadRequest : Z := 400.
Definition StatusUnauthorized : Z := 401.

Inductive error :=
| ErrEventNotSupported
| ErrOriginNotAllowed
| CloseError (code : Z)
| ErrOther (msg : string).

Global Instance error_eq_dec : EqDecision error.
Proof. solve_decision. Defined.

(** websocket.IsUnexpectedCloseError: a close error whose code is not one
    of the expected ones. *)
Definition IsUnexpectedCloseError (err : error) (expected : list Z) : bool :=
  match err with
  | CloseError code => negb (bool_decide (code ∈ expected))
  | _ => false
  end.

Record Client := mkClient {
  addr : ClientPtr;
  connection : Conn;
}.

(** An HTTP request, as far as the handlers look at it. *)
Record Request := mkRequest {
  query : gmap string (list string);
  header : gmap string (list string);
}.

(** url.Values.Get and http.Header.Get: the first value of the key, the
    empty string when there is none. *)
Definition Get (vs : gmap string (list string)) (key : string) : string :=
  match vs !! key with
  | Some (v :: _) => v
  | _ => EmptyString
  end.

Inductive Printed :=
| PString (s : string)
| PEvent (e : Event).

Inductive effect :=
| EClose (conn : Conn)
| ESetReadLimit (conn : Conn) (limit : Z)
| ESetReadDeadline (conn : Conn) (deadline : Z)
| ESetPongHandler (conn : Conn)
| EWriteMessage (conn : Conn) (messageType : Z) (data : list byte)
| EWriteHeader (code : Z)
| EWrite (data : list byte)
| EHttpError (err : error) (code : Z)
| EUpgrade (r : Request)
| EPrintln (v : Printed)
| ELog (msg : string) (err : option error)
| ENewTicker (d : Z)
| ETickerStop
| EDecodePayload (raw : list byte).

(** [EDecodePayload raw] stands for a handler decoding the payload [raw] of
    the Event it was given into the structure of its type
    (json.Unmarshal(event.Payload, &v)): the second stage of a two-stage
    decode.  It is there to speak about handlers; see [decodesPayload]. *)

(** EventHandler is a function signature that is used to affect messages on
    the socket: what it does to the outside world and the error it returns. *)
Abbreviation EventHandler := (Event → Client → list effect * option error)
  (only parsing).

(** ** The token store

    otp.go is not among the sources; NewManager, loginHandler and serveWS
    use it through NewRetentionMap, NewOTP and VerifyOTP. *)

Record OTP := mkOTP {
  Key : string;
  Created : Z;
}.

Abbreviation RetentionMap := (gmap string OTP) (only parsing).

(** Modelled from the spec: NewRetentionMap is missing; the store starts
    empty (the background sweep is the step [Retention] below). *)
Definition NewRetentionMap (retentionPeriod : Z) : RetentionMap := ∅.

(** Modelled from the spec: NewOTP is missing; issue() generates a fresh key
    (here an input: what the generator returned), records the creation time,
    inserts the token into the map and returns it. *)
Definition NewOTP (key : string) (now : Z) (rm : RetentionMap) : OTP * RetentionMap :=
  let o := mkOTP key now in (o, <[key := o]> rm).

(** Modelled from the spec: VerifyOTP is missing; verify(key) looks up the
    key; if present, deletes it (single use) and returns true; if absent,
    returns false.  A token lives in the store until it is verified or its
    retention window elapses, whichever comes first: a token older than the
    window fails to verify even if no sweep has removed it yet, and like an
    absent key it leaves the store as it is.  [now] is the clock at the
    call. *)
Definition VerifyOTP (retentionPeriod now : Z) (otp : string) (rm : RetentionMap) :
    bool * RetentionMap :=
  match rm !! otp with
  | Some o =>
      if bool_decide (now - Created o ≤ retentionPeriod)
      then (true, delete otp rm)
      else (false, rm)
  | None => (false, rm)
  end.

(** Modelled from the spec: the background sweep is missing; it removes all
    entries whose age exceeds the retention window. *)
Definition Retention (retentionPeriod now : Z) (rm : RetentionMap) : RetentionMap :=
  filter (λ kv, now - Created kv.2 ≤ retentionPeriod) rm.

(** ** The Manager and the world around it *)

(** Manager is used to hold references to all Client Registered. *)
Record Manager := mkManager {
  clients : gmap ClientPtr bool;
  handlers : gmap string EventHandler;
  otps : gmap string OTP;
}.

(** The phase of a goroutine started by [go]: spawned and not yet run, or
    inside its [for] loop.  A goroutine that returned is gone. *)
Inductive Phase := Spawned | Looping.

Record World := mkWorld {
  manager : Manager;
  next : ClientPtr;                       (* the next address [&Client{}] gets *)
  readers : gmap ClientPtr (Phase * Client);  (* running readMessages goroutines *)
  writers : gmap ClientPtr (Phase * Client);  (* running WriteMessages goroutines *)
  trace : list effect;
}.

(** *** A state monad over the world *)

Definition M (A : Type) : Type := World → A * World.

#[global] Instance M_ret : MRet M := λ A a w, (a, w).
#[global] Instance M_bind : MBind M :=
  λ A B f m w, let '(a, w') := m w in f a w'.

Definition getManager : M Manager := λ w, (manager w, w).

Definition setManager (m : Manager) : M unit :=
  λ w, (tt, mkWorld m (next w) (readers w) (writers w) (trace w)).

Definition emit (es : list effect) : M unit :=
  λ w, (tt, mkWorld (manager w) (next w) (readers w) (writers w) (trace w ++ es)).

Definition setClients (cs : gmap ClientPtr bool) : M unit :=
  m ← getManager; setManager (mkManager cs (handlers m) (otps m)).

Definition setOtps (os : gmap string OTP) : M unit :=
  m ← getManager; setManager (mkManager (clients m) (handlers m) os).

(** [&Client{...}]: a fresh address. *)
Definition alloc : M ClientPtr :=
  λ w, (next w, mkWorld (manager w) (Pos.succ (next w)) (readers w) (writers w) (trace w)).

(** [go client.readMessages()] and [go client.WriteMessages()]. *)
Definition goRead (c : Client) : M unit :=
  λ w, (tt, mkWorld (manager w) (next w) (<[addr c := (Spawned, c)]> (readers w))
                    (writers w) (trace w)).

Definition goWrite (c : Client) : M unit :=
  λ w, (tt, mkWorld (manager w) (next w) (readers w)
                    (<[addr c := (Spawned, c)]> (writers w)) (trace w)).

Definition setReader (a : ClientPtr) (g : option (Phase * Client)) : M unit :=
  λ w, (tt, mkWorld (manager w) (next w)
                    (match g with Some x => <[a := x]> (readers w) | None => delete a (readers w) end)
                    (writers w) (trace w)).

Definition setWriter (a : ClientPtr) (g : option (Phase * Client)) : M unit :=
  λ w, (tt, mkWorld (manager w) (next w) (readers w)
                    (match g with Some x => <[a := x]> (writers w) | None => delete a (writers w) end)
                    (trace w)).

Definition logErr (msg : string) (err : error) : M unit := emit [ELog msg (Some err)].
Definition logMsg (msg : string) : M unit := emit [ELog msg None].

(** ** manager.go *)

(** checkOrigin will check origin and return true if its allowed *)
Definition checkOrigin (r : Request) : bool :=
  let origin := Get (header r) "Origin" in
  if String.eqb origin "http://localhost:8080" then true else true.

Record Upgrader := mkUpgrader {
  ReadBufferSize : Z;
  WriteBufferSize : Z;
  CheckOrigin : Request → bool;
}.

Definition websocketUpgrader : Upgrader := mkUpgrader 1024 1024 checkOrigin.

(** What the handshake of websocket.Upgrader.Upgrade finds, the origin
    apart: [early] is the outcome of the checks Upgrade makes before it
    consults CheckOrigin (the Connection and Upgrade headers, the method,
    the protocol version), [late] the outcome of what it does after (the
    challenge key, the subprotocol, taking the connection over). *)
Record Handshake := mkHandshake {
  early : option error;
  late : Conn + error;
}.

(** The outcome of a handshake whose origin is not refused. *)
Definition outcome (handshake : Handshake) : Conn + error :=
  match early handshake with
  | Some err => inr err
  | None => late handshake
  end.

(** A handshake that succeeds with the connection [conn]. *)
Definition connects (conn : Conn) : Handshake := mkHandshake None (inl conn).

(** websocket.Upgrader.Upgrade: the early checks first; then a request
    whose origin CheckOrigin refuses is rejected; then the rest. *)
Definition Upgrade (u : Upgrader) (r : Request) (handshake : Handshake) : M (Conn + error) :=
  emit [EUpgrade r] ;;
  mret (match early handshake with
        | Some err => inr err
        | None =>
            if CheckOrigin u r then late handshake else inr ErrOriginNotAllowed
        end).

(** setupEventHandlers configures and adds all handlers *)
Definition sendMessageHandler : EventHandler :=
  λ e c, ([EPrintln (PEvent e)], None).

Definition setupEventHandlers (m : Manager) : Manager :=
  mkManager (clients m) (<[EventSendMessage := sendMessageHandler]> (handlers m)) (otps m).

(** NewManager is used to initalize all the values inside the manager *)
Definition NewManager : Manager :=
  setupEventHandlers (mkManager ∅ ∅ (NewRetentionMap otpRetention)).

(** routeEvent is used to make sure the correct event goes into the correct
    handler *)
Definition reouteEvent (event : Event) (c : Client) : M (option error) :=
  m ← getManager;
  match handlers m !! Type_ event with
  | Some handler =>
      let '(es, err) := handler event c in
      emit es ;;
      match err with
      | Some err => mret (Some err)
      | None => mret None
      end
  | None => mret (Some ErrEventNotSupported)
  end.

(** NewClient is used to initialize a new Client *)
Definition NewClient (conn : Conn) : M Client :=
  a ← alloc; mret (mkClient a conn).

(** addClient will add clients to our clientList *)
Definition addClient (client : Client) : M unit :=
  m ← getManager; setClients (<[addr client := true]> (clients m)).

Definition removeClient (client : Client) : M unit :=
  m ← getManager;
  match clients m !! addr client with
  | Some _ =>
      emit [EClose (connection client)] ;;
      setClients (delete (addr client) (clients m))
  | None => mret tt
  end.

(** serveWS is a HTTP Handler that has the Manager that allows connections.
    [now] is the clock when the token is verified. *)
Definition serveWS (r : Request) (now : Z) (handshake : Handshake) : M unit :=
  let otp := Get (query r) "otp" in
  emit [EPrintln (PString otp)] ;;
  if String.eqb otp EmptyString then emit [EWriteHeader StatusUnauthorized]
  else
    m ← getManager;
    let '(ok, os) := VerifyOTP otpRetention now otp (otps m) in
    setOtps os ;;
    if negb ok then emit [EWriteHeader StatusUnauthorized]
    else
      logMsg "New connections" ;;
      up ← Upgrade websocketUpgrader r handshake;
      match up with
      | inr err => logErr EmptyString err
      | inl conn =>
          client ← NewClient conn;
          addClient client ;;
          goRead client ;;
          goWrite client
      end.

(** loginHandler is used to verify user authentication and return one time
    password.  [body] is what decoding the request body gave, [key] the key
    the generator returns, [data] what marshalling the response gives. *)
Definition loginHandler (body : string * string + error) (key : string) (now : Z)
    (data : list byte + error) : M unit :=
  match body with
  | inr err => emit [EHttpError err StatusBadRequest]
  | inl (username, password) =>
      if String.eqb username "arti" && String.eqb password "123" then
        m ← getManager;
        let '(otp, os) := NewOTP key now (otps m) in
        setOtps os ;;
        match data with
        | inr err => logErr EmptyString err
        | inl data => emit [EWriteHeader StatusOK; EWrite data]
        end
      else emit [EWriteHeader StatusUnauthorized]
  end.

(** One sweep of the retention goroutine of the token store. *)
Definition sweepOtps (now : Z) : M unit :=
  m ← getManager; setOtps (Retention otpRetention now (otps m)).

(** ** manager.go and main.go, the snapshot without tokens

    The earlier snapshot of the Manager has no token store: serveWS goes
    straight to the upgrade, and checkOrigin refuses every origin but one. *)
Module Untokened.

Definition checkOrigin (r : Request) : bool :=
  let origin := Get (header r) "Origin" in
  if String.eqb origin "http://localhost:8080" then true else false.

Definition websocketUpgrader : Upgrader := mkUpgrader 1024 1024 checkOrigin.

Definition serveWS (r : Request) (handshake : Handshake) : M unit :=
  logMsg "New connections" ;;
  up ← Upgrade websocketUpgrader r handshake;
  match up with
  | inr err => logErr EmptyString err
  | inl conn =>
      client ← NewClient conn;
      addClient client ;;
      goRead client ;;
      goWrite client
  end.

End Untokened.

(** ** main.go *)

(** fmt.Fprint of an int: its decimal digits. *)
Definition decimal (n : nat) : list byte :=
  String.list_byte_of_string (NilZero.string_of_uint (Nat.to_uint n)).

(** The handler setupAPI installs on /debug: the number of clients. *)
Definition debugHandler : M unit :=
  m ← getManager; emit [EWrite (decimal (size (clients m)))].

(** ** client.go *)

(** What a loop body asks for: another round, or leave the loop. *)
Inductive Control := Continue | Break.

(** How far a goroutine got on the inputs it was given: it returned, or it
    is blocked waiting for the next input. *)
Inductive Outcome := Returned | Blocked.

(** [defer cleanup] in front of [body]: the cleanup runs when the function
    returns. *)
Definition defer (cleanup : M unit) (body : M Outcome) : M Outcome :=
  r ← body;
  match r with
  | Returned => cleanup ;; mret Returned
  | Blocked => mret Blocked
  end.

(** What select chose in one round of the write loop. *)
Inductive SelectCase :=
| RecvEgress (message : Event)    (* message, ok := <-c.egress with ok *)
| EgressClosed                    (* ok is false *)
| Tick.                           (* <-ticker.C *)

(** pongHandler is used to handle PongMessages for the Client *)
Definition pongHandler (c : Client) (now : Z) (deadlineErr : option error) : M (option error) :=
  logMsg "pong" ;;
  emit [ESetReadDeadline (connection c) (now + pongWait)] ;;
  mret deadlineErr.

Section Loops.

(** encoding/json on Event: json.Unmarshal(payload, &request) and
    json.Marshal(message). *)
Variable unmarshalEvent : list byte → Event + error.
Variable marshalEvent : Event → list byte + error.

(** The part of readMessages before the loop. *)
Definition readPrologue (c : Client) (now : Z) (deadlineErr : option error) : M Control :=
  emit [ESetReadLimit (connection c) 1024] ;;
  emit [ESetReadDeadline (connection c) (now + pongWait)] ;;
  match deadlineErr with
  | Some err => logErr EmptyString err ;; mret Break
  | None => emit [ESetPongHandler (connection c)] ;; mret Continue
  end.

(** One round of the loop of readMessages; [rr] is what ReadMessage
    returned. *)
Definition readIteration (c : Client) (rr : list byte + error) : M Control :=
  match rr with
  | inr err =>
      (if IsUnexpectedCloseError err [CloseGoingAway; CloseAbnormalClosure]
       then logErr "error reading a message: %v" err else mret tt) ;;
      mret Break
  | inl payload =>
      match unmarshalEvent payload with
      | inr err => logErr "error marshaling message: %v" err ;; mret Break
      | inl request =>
          err ← reouteEvent request c;
          match err with
          | Some err => logErr "Error handling Message: " err
          | None => mret tt
          end ;;
          mret Continue
      end
  end.

Fixpoint readLoop (c : Client) (script : list (list byte + error)) : M Outcome :=
  match script with
  | [] => mret Blocked
  | rr :: rest =>
      ctl ← readIteration c rr;
      match ctl with
      | Break => mret Returned
      | Continue => readLoop c rest
      end
  end.

(** readMessage will start the client to read messages and handle them *)
Definition readMessages (c : Client) (now : Z) (deadlineErr : option error)
    (script : list (list byte + error)) : M Outcome :=
  defer (removeClient c)
    (ctl ← readPrologue c now deadlineErr;
     match ctl with
     | Break => mret Returned
     | Continue => readLoop c script
     end).

(** One round of the loop of WriteMessages; [writeErr] is what
    connection.WriteMessage returned in this round. *)
Definition writeIteration (c : Client) (sel : SelectCase) (writeErr : option error) : M Control :=
  match sel with
  | EgressClosed =>
      emit [EWriteMessage (connection c) CloseMessage []] ;;
      match writeErr with
      | Some err => logErr "connection closed: " err
      | None => mret tt
      end ;;
      mret Break
  | RecvEgress message =>
      match marshalEvent message with
      | inr err => logErr EmptyString err ;; mret Break
      | inl data =>
          emit [EWriteMessage (connection c) TextMessage data] ;;
          match writeErr with
          | Some err => logErr EmptyString err
          | None => mret tt
          end ;;
          logMsg "sent message" ;;
          mret Continue
      end
  | Tick =>
      logMsg "ping" ;;
      emit [EWriteMessage (connection c) PingMessage []] ;;
      match writeErr with
      | Some err => logErr "writemsg: " err ;; mret Break
      | None => mret Continue
      end
  end.

Fixpoint writeLoop (c : Client) (script : list (SelectCase * option error)) : M Outcome :=
  match script with
  | [] => mret Blocked
  | (sel, writeErr) :: rest =>
      ctl ← writeIteration c sel writeErr;
      match ctl with
      | Break => mret Returned
      | Continue => writeLoop c rest
      end
  end.

(** writeMessages is a process that listens for new messages to output to
    the Client *)
Definition WriteMessages (c : Client) (script : list (SelectCase * option error)) : M Outcome :=
  emit [ENewTicker pingInterval] ;;
  defer (emit [ETickerStop] ;; removeClient c) (writeLoop c script).

(** ** The server as a transition system

    The goroutines of all clients interleave; each transition is one
    handler call or one round of one loop.  A goroutine that leaves its
    function runs its deferred cleanup and is gone. *)

Definition readExit (c : Client) : M unit :=
  removeClient c ;; setReader (addr c) None.

Definition writeExit (c : Client) : M unit :=
  emit [ETickerStop] ;; removeClient c ;; setWriter (addr c) None.

Definition readStart (c : Client) (now : Z) (deadlineErr : option error) : M unit :=
  ctl ← readPrologue c now deadlineErr;
  match ctl with
  | Break => readExit c
  | Continue => setReader (addr c) (Some (Looping, c))
  end.

Definition readStep (c : Client) (rr : list byte + error) : M unit :=
  ctl ← readIteration c rr;
  match ctl with
  | Break => readExit c
  | Continue => mret tt
  end.

Definition writeStart (c : Client) : M unit :=
  emit [ENewTicker pingInterval] ;; setWriter (addr c) (Some (Looping, c)).

Definition writeStep (c : Client) (sel : SelectCase) (writeErr : option error) : M unit :=
  ctl ← writeIteration c sel writeErr;
  match ctl with
  | Break => writeExit c
  | Continue => mret tt
  end.

Inductive step : World → World → Prop :=
| step_login body key now data w :
    step w (loginHandler body key now data w).2
| step_serveWS r now handshake w :
    step w (serveWS r now handshake w).2
| step_sweep now w :
    step w (sweepOtps now w).2
| step_read_start a c now deadlineErr w :
    readers w !! a = Some (Spawned, c) →
    step w (readStart c now deadlineErr w).2
| step_read a c rr w :
    readers w !! a = Some (Looping, c) →
    step w (readStep c rr w).2
| step_write_start a c w :
    writers w !! a = Some (Spawned, c) →
    step w (writeStart c w).2
| step_write a c sel writeErr w :
    writers w !! a = Some (Looping, c) →
    step w (writeStep c sel writeErr w).2.

(** main: setupAPI creates the Manager; nothing is connected yet. *)
Definition initial : World := mkWorld NewManager 1%positive ∅ ∅ [].

Definition reachable (w : World) : Prop := rtc step initial w.

(** A connection is active when it was admitted and none of its two loops
    has returned, that is, its cleanup has not run. *)
Definition active (w : World) (a : ClientPtr) : Prop :=
  (a < next w)%positive ∧ is_Some (readers w !! a) ∧ is_Some (writers w !! a).


(** ** Observations on worlds and traces *)

(** The number of times the connection [conn] was closed in a trace. *)
Fixpoint closes (conn : Conn) (t : list effect) : nat :=
  match t with
  | [] => 0%nat
  | EClose conn' :: t => ((if Pos.eqb conn' conn then 1 else 0) + closes conn t)%nat
  | _ :: t => closes conn t
  end.

(** The operations on the token store, to speak about its histories. *)
Inductive StoreOp :=
| OpIssue (key : string) (now : Z)
| OpVerify (key : string) (now : Z)
| OpSweep (now : Z).

Definition runOp (period : Z) (rm : gmap string OTP) (op : StoreOp) : gmap string OTP :=
  match op with
  | OpIssue key now => (NewOTP key now rm).2
  | OpVerify key now => (VerifyOTP period now key rm).2
  | OpSweep now => Retention period now rm
  end.

Definition runOps (period : Z) (ops : list StoreOp) : gmap string OTP :=
  foldl (runOp period) (NewRetentionMap period) ops.

(** [op] leaves alone the token [key] issued at [t]: it is not a
    verification of it, not a sweep after its retention window, and no other
    issue of the same key. *)
Definition spares (period : Z) (key : string) (t : Z) (op : StoreOp) : Prop :=
  match op with
  | OpIssue key' _ => key' ≠ key
  | OpVerify key' _ => key' ≠ key
  | OpSweep now => now - t ≤ period
  end.

Definition issues (key : string) (op : StoreOp) : Prop :=
  match op with
  | OpIssue key' _ => key' = key
  | _ => False
  end.

(** [w'] differs from [w] at most in its trace and its token store: the
    registry, the handler table, the allocator and the goroutines are the
    same. *)
Definition frame (w w' : World) : Prop :=
  clients (manager w') = clients (manager w) ∧
  handlers (manager w') = handlers (manager w) ∧
  next w' = next w ∧ readers w' = readers w ∧ writers w' = writers w.

(** The invariant of the server: the goroutines in the tables belong to
    allocated clients, and the registry holds exactly the clients both of
    whose loops are still there. *)
Record Inv (w : World) : Prop := mkInv {
  inv_readers : ∀ a p c, readers w !! a = Some (p, c) → addr c = a ∧ (a < next w)%positive;
  inv_writers : ∀ a p c, writers w !! a = Some (p, c) → addr c = a ∧ (a < next w)%positive;
  inv_clients : ∀ a, is_Some (clients (manager w) !! a) ↔
                     is_Some (readers w !! a) ∧ is_Some (writers w !! a);
  inv_handlers : handlers (manager w) = handlers NewManager;
}.

(** The world [w] after the outside world has seen [es] more. *)
Definition extend (w : World) (es : list effect) : World :=
  mkWorld (manager w) (next w) (readers w) (writers w) (trace w ++ es).

(** The handler of the design: decode the raw payload into the structure of
    its type, then work with that structure (and with the Event and the
    Client); a payload that does not decode is the handler's error. *)
Definition twoStageHandler (decode : list byte → SendMessageEvent + error)
    (body : SendMessageEvent → Event → Client → list effect * option error) :
    Event → Client → list effect * option error :=
  λ e c,
    match decode (Payload e) with
    | inl sm =>
        let '(es, err) := body sm e c in
        (EDecodePayload (Payload e) :: es, err)
    | inr err => ([EDecodePayload (Payload e)], Some err)
    end.

(** The handler [h], given [e] and [c], decodes the payload of [e]. *)
Definition decodesPayload (h : Event → Client → list effect * option error)
    (e : Event) (c : Client) : Prop :=
  EDecodePayload (Payload e) ∈ (h e c).1.

(** ** Observations for the loops *)

(** The number of connections closed in a trace. *)
Fixpoint closeCount (t : list effect) : nat :=
  match t with
  | [] => 0%nat
  | EClose _ :: t => S (closeCount t)
  | _ :: t => closeCount t
  end.

(** The frames handed to the connection [conn] in a trace, in order. *)
Fixpoint sent (conn : Conn) (t : list effect) : list (Z * list byte) :=
  match t with
  | [] => []
  | EWriteMessage conn' kind data :: t =>
      if Pos.eqb conn' conn then (kind, data) :: sent conn t else sent conn t
  | _ :: t => sent conn t
  end.

(** Tickers started and tickers stopped in a trace. *)
Fixpoint tickersStarted (t : list effect) : nat :=
  match t with
  | [] => 0%nat
  | ENewTicker _ :: t => S (tickersStarted t)
  | _ :: t => tickersStarted t
  end.

Fixpoint tickersStopped (t : list effect) : nat :=
  match t with
  | [] => 0%nat
  | ETickerStop :: t => S (tickersStopped t)
  | _ :: t => tickersStopped t
  end.

(** A result of ReadMessage that ends the read loop: an error, or bytes
    that do not decode into an Event. *)
Definition fatal (rr : list byte + error) : bool :=
  match rr with
  | inr _ => true
  | inl payload =>
      match unmarshalEvent payload with
      | inr _ => true
      | inl _ => false
      end
  end.

(** A round of the write loop that ends it: the mailbox is closed, the
    envelope does not marshal, or the ping cannot be written. *)
Definition ending (item : SelectCase * option error) : bool :=
  match item with
  | (EgressClosed, _) => true
  | (RecvEgress message, _) =>
      match marshalEvent message with
      | inr _ => true
      | inl _ => false
      end
  | (Tick, writeErr) =>
      match writeErr with
      | Some _ => true
      | None => false
      end
  end.

(** The frame a round of the write loop hands to the connection. *)
Definition frameOf (item : SelectCase * option error) : list (Z * list byte) :=
  match item with
  | (EgressClosed, _) => [(CloseMessage, [])]
  | (RecvEgress message, _) =>
      match marshalEvent message with
      | inr _ => []
      | inl data => [(TextMessage, data)]
      end
  | (Tick, _) => [(PingMessage, [])]
  end.

(** The rounds a loop gets to: all of them up to and including the first
    one that ends it. *)
Fixpoint upto {A : Type} (stop : A → bool) (l : list A) : list A :=
  match l with
  | [] => []
  | x :: l => if stop x then [x] else x :: upto stop l
  end.

(** Every client that was ever admitted is accounted for: it is in the
    registry, or its connection was closed. *)
Definition accounted (w : World) : Prop :=
  (closeCount (trace w) + size (clients (manager w)))%nat = pred (Pos.to_nat (next w)).

(** The Events printed in a trace, in order. *)
Fixpoint printedEvents (t : list effect) : list Event :=
  match t with
  | [] => []
  | EPrintln (PEvent e) :: t => e :: printedEvents t
  | _ :: t => printedEvents t
  end.

(** The send_message envelope a round of the read loop carries, if any. *)
Definition chatOf (rr : list byte + error) : list Event :=
  match rr with
  | inr _ => []
  | inl payload =>
      match unmarshalEvent payload with
      | inr _ => []
      | inl request =>
          if decide (Type_ request = EventSendMessage) then [request] else []
      end
  end.

(** Whether a call returned an error. *)
Definition isErr (err : option error) : bool :=
  match err with
  | Some _ => true
  | None => false
  end.

(** [w'] is [w] with more output that closes nothing, and possibly another
    token store: registry, allocator and goroutines are the same. *)
Definition quiet (w w' : World) : Prop :=
  clients (manager w') = clients (manager w) ∧ next w' = next w ∧
  readers w' = readers w ∧ writers w' = writers w ∧
  ∃ es, trace w' = trace w ++ es ∧ closeCount es = 0%nat.

(** The client a step admits, if it admits one: the one that got the
    address the allocator gave out. *)
Definition admitted (w w' : World) : list Client :=
  if decide (next w' = next w) then []
  else match readers w' !! next w with
       | Some (_, c) => [c]
       | None => []
       end.

(** A run of the server from its start, with the clients admitted along
    it, the latest first. *)
Inductive run : list Client → World → Prop :=
| run_initial : run [] initial
| run_step cs w w' : run cs w → step w w' → run (admitted w w' ++ cs) w'.

(** What a run keeps true of the clients [cs] it has admitted. *)
Record Acc (cs : list Client) (w : World) : Prop := mkAcc {
  acc_readers : ∀ a p c, readers w !! a = Some (p, c) → c ∈ cs;
  acc_writers : ∀ a p c, writers w !! a = Some (p, c) → c ∈ cs;
  acc_addrs : ∀ c, c ∈ cs → (addr c < next w)%positive;
  acc_nodup : NoDup (map addr cs);
  acc_length : length cs = pred (Pos.to_nat (next w));
  acc_count : accounted w;
  acc_others : ∀ conn, conn ∉ map connection cs → closes conn (trace w) = 0%nat;
  acc_closes :
    NoDup (map connection cs) →
    ∀ c, c ∈ cs →
      closes (connection c) (trace w) =
        if decide (is_Some (clients (manager w) !! addr c)) then 0%nat else 1%nat;
}.

(** ** Sample data for the examples *)

Definition quoted (s : string) : list byte :=
  x22 :: String.list_byte_of_string s ++ [x22].

Definition colon : list byte := String.list_byte_of_string ":".
Definition comma : list byte := String.list_byte_of_string ",".
Definition lbrace : list byte := String.list_byte_of_string "{".
Definition rbrace : list byte := String.list_byte_of_string "}".

(** The payload of a chat message. *)
Definition payloadMF : list byte :=
  lbrace ++ quoted "message" ++ colon ++ quoted "hi" ++ comma ++
  quoted "from" ++ colon ++ quoted "a" ++ rbrace.

(** Three messages as they come from a peer: a chat message, an envelope
    of a type nobody handles, and bytes that are no JSON. *)
Definition msgChat : list byte :=
  lbrace ++ quoted "type" ++ colon ++ quoted "send_message" ++ comma ++
  quoted "payload" ++ colon ++ payloadMF ++ rbrace.

Definition msgUnknown : list byte :=
  lbrace ++ quoted "type" ++ colon ++ quoted "unknown" ++ rbrace.

Definition msgGarbage : list byte := String.list_byte_of_string "{oops".

Fixpoint bytes_eqb (a b : list byte) : bool :=
  match a, b with
  | [], [] => true
  | x :: a, y :: b => Byte.eqb x y && bytes_eqb a b
  | _, _ => false
  end.

(** A decoder for the examples: it answers for the sample messages what
    encoding/json answers, and refuses everything else. *)
Definition sampleUnmarshal (data : list byte) : Event + error :=
  if bytes_eqb data msgChat then inl (mkEvent EventSendMessage payloadMF)
  else if bytes_eqb data msgUnknown then inl (mkEvent "unknown" [])
  else inr (ErrOther "invalid character").

Definition sampleMarshal (e : Event) : list byte + error :=
  match Payload e with
  | [] => inr (ErrOther "unexpected end of JSON input")
  | payload =>
      inl (lbrace ++ quoted "type" ++ colon ++ quoted (Type_ e) ++ comma ++
           quoted "payload" ++ colon ++ payload ++ rbrace)
  end.

Definition sampleClient : Client := mkClient 1 7.

Definition sampleRequest (otp : string) : Request :=
  mkRequest {[ "otp" := [otp] ]} {[ "Origin" := ["http://evil.example"] ]}.

(** The server after a login and the admission of a first client. *)
Definition loggedInWorld : World :=
  (loginHandler (inl ("arti", "123")) "tok" 0 (inl []) 
     (mkWorld NewManager 1%positive ∅ ∅ [])).2.

Definition connectedWorld : World :=
  (serveWS (sampleRequest "tok") 5 (connects 7) loggedInWorld).2.

(** The same server after a second login and a second client. *)
Definition crowdedWorld : World :=
  (serveWS (sampleRequest "tok2") 9 (connects 8)
     (loginHandler (inl ("arti", "123")) "tok2" 8 (inl []) connectedWorld).2).2.

(** ... and after the read loop of the first client has failed to set its
    read deadline and has returned. *)
Definition thinnedWorld : World :=
  (readStart sampleClient 10 (Some (ErrOther "use of closed network connection"))
     crowdedWorld).2.

Definition chatEvent : Event := mkEvent EventSendMessage payloadMF.

(** The world [w] seen with other goroutine tables. *)
Definition withTables (rs ws : gmap ClientPtr (Phase * Client)) (w : World) : World :=
  mkWorld (manager w) (next w) rs ws (trace w).

(** An operation that neither looks at nor changes the goroutine tables:
    the body of a function, as opposed to the scheduler's bookkeeping. *)
Definition oblivious {A : Type} (f : M A) : Prop :=
  ∀ rs ws w, f (withTables rs ws w) = ((f w).1, withTables rs ws (f w).2).

(** * Properties *)

(** Unfolding the monad: every operation is a function of the world. *)
Ltac run :=
  repeat progress
    (unfold mbind, mret, M_bind, M_ret, defer, logErr, logMsg, setClients, setOtps,
       setManager, getManager, emit, alloc, goRead, goWrite, setReader, setWriter;
     cbn [fst snd manager next readers writers trace clients handlers otps addr connection]).

(** ** The registry *)

Lemma removeClient_present (c : Client) (w : World) (b : bool) :
  clients (manager w) !! addr c = Some b →
  removeClient c w =
    (tt, mkWorld (mkManager (delete (addr c) (clients (manager w)))
                            (handlers (manager w)) (otps (manager w)))
                 (next w) (readers w) (writers w)
                 (trace w ++ [EClose (connection c)])).
Proof. intros H. unfold removeClient. run. by rewrite H. Qed.

Lemma removeClient_absent (c : Client) (w : World) :
  clients (manager w) !! addr c = None → removeClient c w = (tt, w).
Proof. intros H. unfold removeClient. run. by rewrite H. Qed.

Lemma removeClient_gone (c : Client) (w : World) :
  clients (manager (removeClient c w).2) !! addr c = None.
Proof.
  destruct (clients (manager w) !! addr c) as [b|] eqn:E.
  - rewrite (removeClient_present _ _ _ E). simpl. apply lookup_delete_eq.
  - by rewrite (removeClient_absent _ _ E).
Qed.

Lemma removeClient_frame (c : Client) (w : World) :
  let w' := (removeClient c w).2 in
  clients (manager w') = delete (addr c) (clients (manager w)) ∧
  handlers (manager w') = handlers (manager w) ∧
  otps (manager w') = otps (manager w) ∧
  next w' = next w ∧ readers w' = readers w ∧ writers w' = writers w.
Proof.
  destruct (clients (manager w) !! addr c) as [b|] eqn:E.
  - rewrite (removeClient_present _ _ _ E). by simpl.
  - rewrite (removeClient_absent _ _ E). simpl.
    by rewrite delete_id.
Qed.

Lemma closes_app (conn : Conn) (t1 t2 : list effect) :
  closes conn (t1 ++ t2) = (closes conn t1 + closes conn t2)%nat.
Proof.
  induction t1 as [|e t1 IH]; [done|].
  destruct e; simpl; rewrite IH; lia.
Qed.

Lemma closes_snoc (conn : Conn) (t : list effect) :
  closes conn (t ++ [EClose conn]) = S (closes conn t).
Proof. rewrite closes_app. simpl. rewrite Pos.eqb_refl. lia. Qed.

(** C1: calling removeClient(c) twice in succession, from any state of the
    registry, leaves the registry without c, and the second call is a no-op:
    it closes nothing and changes nothing.  When c is present, the first call
    closes the stream of c and deletes c from the set, so that the two calls
    together close the connection exactly once; nothing else is closed.
    When c is absent, the first call is a no-op as well. *)
Theorem removeClient_twice (c : Client) (w : World) :
  let w1 := (removeClient c w).2 in
  let w2 := (removeClient c w1).2 in
  clients (manager w2) !! addr c = None ∧
  w2 = w1 ∧
  (is_Some (clients (manager w) !! addr c) →
     trace w1 = trace w ++ [EClose (connection c)] ∧
     clients (manager w1) = delete (addr c) (clients (manager w)) ∧
     trace w2 = trace w ++ [EClose (connection c)] ∧
     closes (connection c) (trace w2) = S (closes (connection c) (trace w))) ∧
  (clients (manager w) !! addr c = None → w1 = w).
Proof.
  intros w1 w2.
  assert (Hgone : clients (manager w1) !! addr c = None) by apply removeClient_gone.
  assert (H21 : w2 = w1).
  { subst w2. by rewrite (removeClient_absent _ _ Hgone). }
  split; [by rewrite H21|]. split; [done|].
  split.
  - intros [b Hb]. rewrite H21. subst w1.
    rewrite (removeClient_present _ _ _ Hb). simpl.
    repeat split. apply closes_snoc.
  - intros Hn. subst w1. by rewrite (removeClient_absent _ _ Hn).
Qed.

(** ** Durations *)

Lemma Second_ns : Time.Second = 1000000000.
Proof. reflexivity. Qed.

(** C7: with pongWait = 10 seconds, pingInterval = (pongWait * 9) / 10 is
    9 seconds: exactly nine tenths of the pong-wait window, strictly less
    than it, and the int64 arithmetic that computes it neither wraps around
    nor rounds. *)
Theorem pingInterval_nine_tenths :
  pongWait = 10 * Time.Second ∧
  pingInterval = 9 * Time.Second ∧
  10 * pingInterval = 9 * pongWait ∧
  0 < pingInterval < pongWait ∧
  Time.mul pongWait 9 = pongWait * 9 ∧
  (pongWait * 9) mod 10 = 0.
Proof. repeat split. Qed.

(** ** Origin check *)

Lemma checkOrigin_true (r : Request) : checkOrigin r = true.
Proof. unfold checkOrigin. by destruct (String.eqb _ _). Qed.

Lemma Upgrade_websocketUpgrader (r : Request) (handshake : Handshake) (w : World) :
  Upgrade websocketUpgrader r handshake w =
    (outcome handshake, mkWorld (manager w) (next w) (readers w) (writers w)
                        (trace w ++ [EUpgrade r])).
Proof.
  unfold Upgrade, outcome. run.
  change (CheckOrigin websocketUpgrader r) with (checkOrigin r).
  by rewrite checkOrigin_true.
Qed.

Lemma Untokened_checkOrigin_refuses :
  Untokened.checkOrigin (mkRequest ∅ {[ "Origin" := ["http://evil.example"] ]}) = false.
Proof. reflexivity. Qed.

(** C10: checkOrigin returns true for every request, whatever its Origin
    header (the default case of the switch returns true like the case of
    http://localhost:8080), so the upgrader never turns a request down for
    its origin: the outcome of Upgrade is the outcome of the handshake. *)
Theorem checkOrigin_allows_all (r : Request) :
  checkOrigin r = true ∧
  CheckOrigin websocketUpgrader r = true ∧
  ∀ (handshake : Handshake) (w : World),
    (Upgrade websocketUpgrader r handshake w).1 = outcome handshake.
Proof.
  split; [apply checkOrigin_true|]. split; [apply checkOrigin_true|].
  intros handshake w. by rewrite Upgrade_websocketUpgrader.
Qed.

(** ** Admission *)

Lemma VerifyOTP_false (period now : Z) (otp : string) (rm : gmap string OTP) :
  (VerifyOTP period now otp rm).1 = false → (VerifyOTP period now otp rm).2 = rm.
Proof. unfold VerifyOTP. destruct (rm !! otp); [|done]. by case_bool_decide. Qed.

Lemma serveWS_rejected (r : Request) (now : Z) (handshake : Handshake) (w : World) :
  Get (query r) "otp" = EmptyString ∨
  (VerifyOTP otpRetention now (Get (query r) "otp") (otps (manager w))).1 = false →
  serveWS r now handshake w =
    (tt, mkWorld (manager w) (next w) (readers w) (writers w)
                 (trace w ++ [EPrintln (PString (Get (query r) "otp"));
                              EWriteHeader StatusUnauthorized])).
Proof.
  intros H. unfold serveWS.
  destruct (String.eqb (Get (query r) "otp") EmptyString) eqn:E.
  - run. by rewrite <- app_assoc.
  - destruct H as [H|H]; [apply String.eqb_neq in E; done|].
    run.
    pose proof (VerifyOTP_false _ _ _ _ H) as H2.
    destruct (VerifyOTP otpRetention now (Get (query r) "otp") (otps (manager w))) as [ok os].
    simpl in *. subst ok os. simpl.
    rewrite <- app_assoc. by destruct (manager w).
Qed.

(** C3: when the otp query parameter is empty or absent, or when the token
    does not verify, serveWS answers 401 Unauthorized and returns before the
    upgrade: the world is as before but for the two lines of output (the
    printed otp and the status), so nothing was upgraded, no Client was
    created, registered or started, and the client set is unchanged. *)
Theorem serveWS_unauthorized (r : Request) (now : Z) (handshake : Handshake) (w : World) :
  Get (query r) "otp" = EmptyString ∨
  (VerifyOTP otpRetention now (Get (query r) "otp") (otps (manager w))).1 = false →
  let w' := (serveWS r now handshake w).2 in
  trace w' = trace w ++ [EPrintln (PString (Get (query r) "otp"));
                         EWriteHeader StatusUnauthorized] ∧
  manager w' = manager w ∧
  clients (manager w') = clients (manager w) ∧
  next w' = next w ∧ readers w' = readers w ∧ writers w' = writers w.
Proof. intros H. by rewrite (serveWS_rejected _ _ _ _ H). Qed.

(** ** Dispatch *)

Lemma reouteEvent_no_handler (e : Event) (c : Client) (w : World) :
  handlers (manager w) !! Type_ e = None →
  reouteEvent e c w = (Some ErrEventNotSupported, w).
Proof. intros H. unfold reouteEvent. run. by rewrite H. Qed.

Lemma reouteEvent_handler (e : Event) (c : Client) (w : World) (h : EventHandler) :
  handlers (manager w) !! Type_ e = Some h →
  reouteEvent e c w =
    ((h e c).2,
     mkWorld (manager w) (next w) (readers w) (writers w) (trace w ++ (h e c).1)).
Proof.
  intros H. unfold reouteEvent. run. rewrite H.
  destruct (h e c) as [es [err|]]; done.
Qed.

Lemma handlers_NewManager (ty : string) :
  handlers NewManager !! ty =
    if decide (ty = EventSendMessage) then Some sendMessageHandler else None.
Proof.
  unfold NewManager, setupEventHandlers. simpl.
  case_decide as E.
  - subst. apply lookup_insert_eq.
  - rewrite lookup_insert_ne by done. apply lookup_empty.
Qed.

(** ** The token store *)

Lemma VerifyOTP_live (period now : Z) (key : string) (rm : gmap string OTP) (o : OTP) :
  rm !! key = Some o → now - Created o ≤ period →
  VerifyOTP period now key rm = (true, delete key rm).
Proof. intros Ho Hl. unfold VerifyOTP. rewrite Ho. by rewrite bool_decide_eq_true_2. Qed.

Lemma VerifyOTP_expired (period now : Z) (key : string) (rm : gmap string OTP) (o : OTP) :
  rm !! key = Some o → period < now - Created o →
  VerifyOTP period now key rm = (false, rm).
Proof.
  intros Ho Hl. unfold VerifyOTP. rewrite Ho.
  rewrite bool_decide_eq_false_2; [done|lia].
Qed.

Lemma VerifyOTP_absent (period now : Z) (key : string) (rm : gmap string OTP) :
  rm !! key = None → VerifyOTP period now key rm = (false, rm).
Proof. intros H. unfold VerifyOTP. by rewrite H. Qed.

Lemma VerifyOTP_true (period now : Z) (key : string) (rm os : gmap string OTP) :
  VerifyOTP period now key rm = (true, os) →
  os = delete key rm ∧ ∃ o, rm !! key = Some o ∧ now - Created o ≤ period.
Proof.
  unfold VerifyOTP. destruct (rm !! key) as [o|]; [|done].
  case_bool_decide; [|done]. intros [= <-]. eauto.
Qed.

Lemma VerifyOTP_others (period now : Z) (key key' : string) (rm : gmap string OTP) :
  key' ≠ key → (VerifyOTP period now key' rm).2 !! key = rm !! key.
Proof.
  intros Hne. unfold VerifyOTP. destruct (rm !! key'); [|done].
  case_bool_decide; [|done]. simpl. by rewrite lookup_delete_ne.
Qed.

Lemma VerifyOTP_keeps_absent (period now : Z) (key key' : string) (rm : gmap string OTP) :
  rm !! key = None → (VerifyOTP period now key' rm).2 !! key = None.
Proof.
  intros Hk. unfold VerifyOTP. destruct (rm !! key'); [|done].
  case_bool_decide; [|done]. simpl.
  destruct (decide (key' = key)) as [->|]; [apply lookup_delete_eq|].
  by rewrite lookup_delete_ne.
Qed.

Lemma runOp_spares (period : Z) (key : string) (t : Z) (rm : gmap string OTP) (op : StoreOp) :
  spares period key t op →
  rm !! key = Some (mkOTP key t) →
  runOp period rm op !! key = Some (mkOTP key t).
Proof.
  intros Hs Hk. destruct op as [k now|k now|now]; simpl in *.
  - by rewrite lookup_insert_ne.
  - by rewrite VerifyOTP_others.
  - unfold Retention. apply map_lookup_filter_Some. done.
Qed.

Lemma foldl_spares (period : Z) (key : string) (t : Z) (ops : list StoreOp) :
  Forall (spares period key t) ops →
  ∀ rm : gmap string OTP,
    rm !! key = Some (mkOTP key t) →
    foldl (runOp period) rm ops !! key = Some (mkOTP key t).
Proof.
  induction 1 as [|op ops Hop _ IH]; intros rm Hk; [done|].
  simpl. apply IH. by apply runOp_spares.
Qed.

Lemma runOp_not_issued (period : Z) (key : string) (rm : gmap string OTP) (op : StoreOp) :
  ¬ issues key op → rm !! key = None → runOp period rm op !! key = None.
Proof.
  intros Hn Hk. destruct op as [k now|k now|now]; simpl in *.
  - by rewrite lookup_insert_ne.
  - by apply VerifyOTP_keeps_absent.
  - unfold Retention. apply map_lookup_filter_None. by left.
Qed.

Lemma foldl_not_issued (period : Z) (key : string) (ops : list StoreOp) :
  Forall (λ op, ¬ issues key op) ops →
  ∀ rm : gmap string OTP,
    rm !! key = None → foldl (runOp period) rm ops !! key = None.
Proof.
  induction 1 as [|op ops Hop _ IH]; intros rm Hk; [done|].
  simpl. apply IH. by apply runOp_not_issued.
Qed.

(** ** Frames: what the operations leave alone *)

Lemma frame_refl (w : World) : frame w w.
Proof. by repeat split. Qed.

Lemma frame_trans (w1 w2 w3 : World) : frame w1 w2 → frame w2 w3 → frame w1 w3.
Proof.
  intros (?&?&?&?&?) (?&?&?&?&?). repeat split; congruence.
Qed.

Lemma frame_emit (es : list effect) (w : World) : frame w (emit es w).2.
Proof. by repeat split. Qed.

Lemma frame_setOtps (os : gmap string OTP) (w : World) : frame w (setOtps os w).2.
Proof. by repeat split. Qed.

Lemma frame_reouteEvent (e : Event) (c : Client) (w : World) :
  frame w (reouteEvent e c w).2 ∧ otps (manager (reouteEvent e c w).2) = otps (manager w).
Proof.
  destruct (handlers (manager w) !! Type_ e) as [h|] eqn:E.
  - rewrite (reouteEvent_handler _ _ _ _ E). by repeat split.
  - rewrite (reouteEvent_no_handler _ _ _ E). by repeat split.
Qed.

Lemma frame_loginHandler body key now data (w : World) :
  frame w (loginHandler body key now data w).2.
Proof.
  unfold loginHandler. destruct body as [[u pw]|err]; [|apply frame_emit].
  destruct (_ && _); [|apply frame_emit].
  run. destruct data; by repeat split.
Qed.

Lemma frame_sweepOtps now (w : World) : frame w (sweepOtps now w).2.
Proof. by repeat split. Qed.

Lemma Inv_frame (w w' : World) : frame w w' → Inv w → Inv w'.
Proof.
  intros (Hc&Hh&Hn&Hr&Hw) [I1 I2 I3 I4].
  split; rewrite ?Hc, ?Hh, ?Hn, ?Hr, ?Hw; done.
Qed.

Lemma Inv_initial_world : Inv (mkWorld NewManager 1%positive ∅ ∅ []).
Proof.
  split; simpl; try done.
  intros a. rewrite !lookup_empty. split; [intros [? ?]|intros [[? ?] _]]; done.
Qed.

(** ** Admission, continued *)

Lemma serveWS_accepted (r : Request) (now : Z) (handshake : Handshake) (conn : Conn)
    (w : World) (os : gmap string OTP) :
  Get (query r) "otp" ≠ EmptyString →
  VerifyOTP otpRetention now (Get (query r) "otp") (otps (manager w)) = (true, os) →
  outcome handshake = inl conn →
  serveWS r now handshake w =
    (tt, let client := mkClient (next w) conn in
         mkWorld (mkManager (<[next w := true]> (clients (manager w)))
                            (handlers (manager w)) os)
                 (Pos.succ (next w))
                 (<[next w := (Spawned, client)]> (readers w))
                 (<[next w := (Spawned, client)]> (writers w))
                 (trace w ++ [EPrintln (PString (Get (query r) "otp"));
                              ELog "New connections" None; EUpgrade r])).
Proof.
  intros Hne Hv Ho. unfold serveWS.
  apply String.eqb_neq in Hne. rewrite Hne.
  unfold Upgrade, NewClient, addClient. run.
  rewrite Hv.
  change (CheckOrigin websocketUpgrader r) with (checkOrigin r).
  rewrite checkOrigin_true. fold (outcome handshake). rewrite Ho. simpl.
  by rewrite <- !app_assoc.
Qed.

Lemma serveWS_upgrade_error (r : Request) (now : Z) (handshake : Handshake) (err : error)
    (w : World) (os : gmap string OTP) :
  Get (query r) "otp" ≠ EmptyString →
  VerifyOTP otpRetention now (Get (query r) "otp") (otps (manager w)) = (true, os) →
  outcome handshake = inr err →
  serveWS r now handshake w =
    (tt, mkWorld (mkManager (clients (manager w)) (handlers (manager w)) os)
                 (next w) (readers w) (writers w)
                 (trace w ++ [EPrintln (PString (Get (query r) "otp"));
                              ELog "New connections" None; EUpgrade r;
                              ELog EmptyString (Some err)])).
Proof.
  intros Hne Hv Ho. unfold serveWS.
  apply String.eqb_neq in Hne. rewrite Hne.
  unfold Upgrade. run. rewrite Hv.
  change (CheckOrigin websocketUpgrader r) with (checkOrigin r).
  rewrite checkOrigin_true. fold (outcome handshake). rewrite Ho. simpl.
  by rewrite <- !app_assoc.
Qed.

Lemma serveWS_upgrade_failed (r : Request) (now : Z) (handshake : Handshake) (err : error)
    (w : World) :
  outcome handshake = inr err → frame w (serveWS r now handshake w).2.
Proof.
  intros Ho.
  destruct (decide (Get (query r) "otp" = EmptyString)) as [E|E].
  { rewrite (serveWS_rejected r now handshake w (or_introl E)). by repeat split. }
  destruct (VerifyOTP otpRetention now (Get (query r) "otp") (otps (manager w)))
    as [[] os] eqn:Hv.
  - rewrite (serveWS_upgrade_error _ _ _ _ _ _ E Hv Ho). by repeat split.
  - assert (Hf : (VerifyOTP otpRetention now (Get (query r) "otp")
                    (otps (manager w))).1 = false) by by rewrite Hv.
    rewrite (serveWS_rejected r now handshake w (or_intror Hf)). by repeat split.
Qed.

Lemma Inv_serveWS (r : Request) (now : Z) (handshake : Handshake) (w : World) :
  Inv w → Inv (serveWS r now handshake w).2.
Proof.
  intros HI.
  destruct (outcome handshake) as [conn|err] eqn:Ho;
    [|by eapply Inv_frame, HI; eapply serveWS_upgrade_failed].
  destruct (decide (Get (query r) "otp" = EmptyString)) as [E|E].
  { rewrite (serveWS_rejected r now handshake w (or_introl E)).
    eapply Inv_frame, HI. by repeat split. }
  destruct (VerifyOTP otpRetention now (Get (query r) "otp") (otps (manager w)))
    as [[] os] eqn:Hv.
  - rewrite (serveWS_accepted _ _ _ _ _ _ E Hv Ho). destruct HI as [I1 I2 I3 I4].
    split; simpl.
    + intros a p c. rewrite lookup_insert. case_decide as Ha.
      * intros [= <- <-]. simpl. split; [done|lia].
      * intros H. destruct (I1 _ _ _ H). split; [done|lia].
    + intros a p c. rewrite lookup_insert. case_decide as Ha.
      * intros [= <- <-]. simpl. split; [done|lia].
      * intros H. destruct (I2 _ _ _ H). split; [done|lia].
    + intros a. rewrite !lookup_insert. case_decide as Ha; [|apply I3].
      split; [intros _; split; by eexists|by eexists].
    + done.
  - assert (Hf : (VerifyOTP otpRetention now (Get (query r) "otp")
                    (otps (manager w))).1 = false) by by rewrite Hv.
    rewrite (serveWS_rejected r now handshake w (or_intror Hf)).
    eapply Inv_frame, HI. by repeat split.
Qed.

Lemma serveWS_consumes_token (r : Request) (now : Z) (handshake : Handshake)
    (conn : Conn) (o : OTP) (w : World) :
  Get (query r) "otp" ≠ EmptyString →
  otps (manager w) !! Get (query r) "otp" = Some o →
  now - Created o ≤ otpRetention →
  outcome handshake = inl conn →
  let w1 := (serveWS r now handshake w).2 in
  is_Some (clients (manager w1) !! next w) ∧
  otps (manager w1) !! Get (query r) "otp" = None ∧
  ∀ now' handshake',
    serveWS r now' handshake' w1 =
      (tt, extend w1 [EPrintln (PString (Get (query r) "otp"));
                      EWriteHeader StatusUnauthorized]).
Proof.
  intros Hne Hs Hl Ho w1.
  pose proof (VerifyOTP_live _ _ _ _ _ Hs Hl) as Hv.
  assert (Hgone : otps (manager w1) !! Get (query r) "otp" = None).
  { subst w1. rewrite (serveWS_accepted _ _ _ _ _ _ Hne Hv Ho). simpl.
    apply lookup_delete_eq. }
  split; [|split; [done|]].
  - subst w1. rewrite (serveWS_accepted _ _ _ _ _ _ Hne Hv Ho). simpl.
    rewrite lookup_insert_eq. by eexists.
  - intros now' handshake'. apply serveWS_rejected. right.
    by rewrite (VerifyOTP_absent _ _ _ _ Hgone).
Qed.

(** C2 (amended): tokens are single-use and short-lived.  In every history
    of the store, a token that was issued, has since then been neither
    verified nor swept away, and is still within its retention window
    verifies successfully; the verification removes it from the store, and a
    second verification of the same key, at any time, returns false.  A
    token whose retention window has elapsed does not verify, even if no
    sweep has removed it; a key that was never issued does not verify.  At
    the admission endpoint: a request with a live token is admitted and
    uses the token up, so that any further request with the same token is
    answered 401. *)
Theorem tokens_single_use (period : Z) (key : string) :
  (∀ (before after : list StoreOp) (t now : Z),
     Forall (spares period key t) after →
     now - t ≤ period →
     let rm := runOps period (before ++ OpIssue key t :: after) in
     VerifyOTP period now key rm = (true, delete key rm) ∧
     (VerifyOTP period now key rm).2 !! key = None ∧
     ∀ now', VerifyOTP period now' key (VerifyOTP period now key rm).2 =
               (false, delete key rm)) ∧
  (∀ (before after : list StoreOp) (t now : Z),
     Forall (spares period key t) after →
     period < now - t →
     let rm := runOps period (before ++ OpIssue key t :: after) in
     VerifyOTP period now key rm = (false, rm)) ∧
  (∀ (ops : list StoreOp) (now : Z),
     Forall (λ op, ¬ issues key op) ops →
     VerifyOTP period now key (runOps period ops) = (false, runOps period ops)) ∧
  (∀ (r : Request) (now : Z) (handshake : Handshake) (conn : Conn) (o : OTP) (w : World),
     Get (query r) "otp" = key → key ≠ EmptyString →
     otps (manager w) !! key = Some o →
     now - Created o ≤ otpRetention →
     outcome handshake = inl conn →
     let w1 := (serveWS r now handshake w).2 in
     is_Some (clients (manager w1) !! next w) ∧
     otps (manager w1) !! key = None ∧
     ∀ now' handshake',
       serveWS r now' handshake' w1 =
         (tt, extend w1 [EPrintln (PString key); EWriteHeader StatusUnauthorized])).
Proof.
  assert (Hk : ∀ before after t,
    Forall (spares period key t) after →
    runOps period (before ++ OpIssue key t :: after) !! key = Some (mkOTP key t)).
  { intros before after t Hafter. unfold runOps. rewrite foldl_app. simpl.
    apply foldl_spares; [done|]. apply lookup_insert_eq. }
  split; [|split; [|split]].
  - intros before after t now Hafter Hl rm.
    rewrite (VerifyOTP_live period now key rm _ (Hk _ _ _ Hafter) Hl).
    simpl. split; [done|]. split; [apply lookup_delete_eq|].
    intros now'. apply VerifyOTP_absent, lookup_delete_eq.
  - intros before after t now Hafter Hl rm.
    by apply (VerifyOTP_expired period now key rm _ (Hk _ _ _ Hafter)).
  - intros ops now Hops. apply VerifyOTP_absent.
    unfold runOps. apply foldl_not_issued; [done|]. apply lookup_empty.
  - intros r now handshake conn o w <- Hne Hs Hl Ho.
    by eapply serveWS_consumes_token.
Qed.

(** ** The loops *)

Lemma frame_readPrologue (c : Client) (now : Z) (dl : option error) (w : World) :
  frame w (readPrologue c now dl w).2.
Proof. unfold readPrologue. destruct dl; by repeat split. Qed.

Lemma frame_readIteration (c : Client) (rr : list byte + error) (w : World) :
  frame w (readIteration c rr w).2.
Proof.
  unfold readIteration. destruct rr as [payload|err].
  - destruct (unmarshalEvent payload) as [request|err]; [|by repeat split].
    run. pose proof (frame_reouteEvent request c w) as [Hf _].
    destruct (reouteEvent request c w) as [[err|] w1]; simpl in *;
      (eapply frame_trans; [exact Hf|by repeat split]).
  - run. destruct (IsUnexpectedCloseError _ _); by repeat split.
Qed.

Lemma frame_writeIteration (c : Client) (sel : SelectCase) (we : option error) (w : World) :
  frame w (writeIteration c sel we w).2.
Proof.
  unfold writeIteration. destruct sel as [message| |].
  - destruct (marshalEvent message); [|by repeat split].
    destruct we; by repeat split.
  - destruct we; by repeat split.
  - destruct we; by repeat split.
Qed.

Lemma readExit_world (c : Client) (w : World) :
  let w' := (readExit c w).2 in
  clients (manager w') = delete (addr c) (clients (manager w)) ∧
  handlers (manager w') = handlers (manager w) ∧
  next w' = next w ∧
  readers w' = delete (addr c) (readers w) ∧ writers w' = writers w.
Proof.
  unfold readExit. run.
  pose proof (removeClient_frame c w) as (?&?&?&?&?&?).
  destruct (removeClient c w) as [[] w1]. simpl in *. repeat split; congruence.
Qed.

Lemma writeExit_world (c : Client) (w : World) :
  let w' := (writeExit c w).2 in
  clients (manager w') = delete (addr c) (clients (manager w)) ∧
  handlers (manager w') = handlers (manager w) ∧
  next w' = next w ∧
  readers w' = readers w ∧ writers w' = delete (addr c) (writers w).
Proof.
  unfold writeExit. run.
  match goal with |- context [removeClient c ?w0] =>
    pose proof (removeClient_frame c w0) as (?&?&?&?&?&?);
    destruct (removeClient c w0) as [[] w1] end.
  simpl in *. repeat split; congruence.
Qed.

Lemma Inv_readExit (c : Client) (w : World) : Inv w → Inv (readExit c w).2.
Proof.
  intros [I1 I2 I3 I4].
  pose proof (readExit_world c w) as (Hc&Hh&Hn&Hr&Hw). simpl in *.
  split; rewrite ?Hc, ?Hh, ?Hn, ?Hr, ?Hw; try done.
  - intros a p c'. rewrite lookup_delete. case_decide; [done|]. apply I1.
  - intros a. rewrite !lookup_delete. case_decide; [|apply I3].
    split; [intros [? ?]|intros [[? ?] _]]; done.
Qed.

Lemma Inv_writeExit (c : Client) (w : World) : Inv w → Inv (writeExit c w).2.
Proof.
  intros [I1 I2 I3 I4].
  pose proof (writeExit_world c w) as (Hc&Hh&Hn&Hr&Hw). simpl in *.
  split; rewrite ?Hc, ?Hh, ?Hn, ?Hr, ?Hw; try done.
  - intros a p c'. rewrite lookup_delete. case_decide; [done|]. apply I2.
  - intros a. rewrite !lookup_delete. case_decide; [|apply I3].
    split; [intros [? ?]|intros [_ [? ?]]]; done.
Qed.

Lemma Inv_setReader_Looping (c : Client) (p : Phase) (w : World) :
  readers w !! addr c = Some (p, c) →
  Inv w → Inv (setReader (addr c) (Some (Looping, c)) w).2.
Proof.
  intros Hr [I1 I2 I3 I4]. split; simpl; try done.
  - intros a p' c'. rewrite lookup_insert. case_decide as Ha; [|apply I1].
    intros [= <- <-]. subst a. by apply (I1 _ p).
  - intros a. rewrite lookup_insert. case_decide as Ha; [|apply I3].
    subst a. rewrite I3, Hr. split; intros [? ?]; split; by eauto.
Qed.

Lemma Inv_setWriter_Looping (c : Client) (p : Phase) (w : World) :
  writers w !! addr c = Some (p, c) →
  Inv w → Inv (setWriter (addr c) (Some (Looping, c)) w).2.
Proof.
  intros Hr [I1 I2 I3 I4]. split; simpl; try done.
  - intros a p' c'. rewrite lookup_insert. case_decide as Ha; [|apply I2].
    intros [= <- <-]. subst a. by apply (I2 _ p).
  - intros a. rewrite lookup_insert. case_decide as Ha; [|apply I3].
    subst a. rewrite I3, Hr. split; intros [? ?]; split; by eauto.
Qed.

Lemma Inv_step (w w' : World) : step w w' → Inv w → Inv w'.
Proof.
  intros Hs HI. destruct Hs as [body key now data w|r hs w|now w
    |a c now dl w Hr|a c rr w Hr|a c w Hw|a c sel we w Hw].
  - eapply Inv_frame, HI. apply frame_loginHandler.
  - by apply Inv_serveWS.
  - eapply Inv_frame, HI. apply frame_sweepOtps.
  - destruct (inv_readers _ HI _ _ _ Hr) as [Ha _]. subst a.
    unfold readStart. run.
    pose proof (frame_readPrologue c now dl w) as Hf.
    destruct (readPrologue c now dl w) as [[] w1]; simpl in *.
    + eapply Inv_setReader_Looping; [|by eapply Inv_frame, HI].
      destruct Hf as (_&_&_&->&_). exact Hr.
    + apply Inv_readExit. by eapply Inv_frame, HI.
  - unfold readStep. run.
    pose proof (frame_readIteration c rr w) as Hf.
    destruct (readIteration c rr w) as [[] w1]; simpl in *.
    + by eapply Inv_frame, HI.
    + apply Inv_readExit. by eapply Inv_frame, HI.
  - destruct (inv_writers _ HI _ _ _ Hw) as [Ha _]. subst a.
    unfold writeStart. run.
    eapply (Inv_setWriter_Looping c Spawned
              (mkWorld _ _ _ _ _)); [exact Hw|].
    eapply Inv_frame, HI. by repeat split.
  - unfold writeStep. run.
    pose proof (frame_writeIteration c sel we w) as Hf.
    destruct (writeIteration c sel we w) as [[] w1]; simpl in *.
    + by eapply Inv_frame, HI.
    + apply Inv_writeExit. by eapply Inv_frame, HI.
Qed.

Lemma reachable_Inv (w : World) : reachable w → Inv w.
Proof.
  unfold reachable. intros H.
  eapply (rtc_ind_r Inv); [| |exact H].
  - apply Inv_initial_world.
  - intros w1 w2 _ Hs HI. by eapply Inv_step.
Qed.

(** *** Dispatch from the read loop *)

Lemma reachable_handlers (w : World) (ty : string) :
  reachable w →
  handlers (manager w) !! ty =
    if decide (ty = EventSendMessage) then Some sendMessageHandler else None.
Proof.
  intros H. rewrite (inv_handlers _ (reachable_Inv _ H)). apply handlers_NewManager.
Qed.

(** C4: reouteEvent returns ErrEventNotSupported when no handler is
    registered for the type of the event, without calling anything; when a
    handler is registered, it is invoked with (e, c) and what it returns,
    error or nil, is returned unchanged.  In every reachable state of the
    server (the handler table is the one NewManager installs and nothing
    changes it), the caller sees ErrEventNotSupported if and only if no
    handler is registered for e.Type. *)
Theorem reouteEvent_dispatch (e : Event) (c : Client) (w : World) :
  (handlers (manager w) !! Type_ e = None →
     reouteEvent e c w = (Some ErrEventNotSupported, w)) ∧
  (∀ h, handlers (manager w) !! Type_ e = Some h →
     reouteEvent e c w = ((h e c).2, extend w (h e c).1)) ∧
  (reachable w →
     ((reouteEvent e c w).1 = Some ErrEventNotSupported ↔
      handlers (manager w) !! Type_ e = None)).
Proof.
  split; [apply reouteEvent_no_handler|]. split; [apply reouteEvent_handler|].
  intros Hw. pose proof (reachable_handlers w (Type_ e) Hw) as Hl.
  case_decide as E.
  - rewrite (reouteEvent_handler _ _ _ _ Hl), Hl. simpl. split; intros [=].
  - by rewrite (reouteEvent_no_handler _ _ _ Hl), Hl.
Qed.

Lemma readIteration_decode_error (c : Client) (payload : list byte) (err : error) (w : World) :
  unmarshalEvent payload = inr err →
  readIteration c (inl payload) w =
    (Break, extend w [ELog "error marshaling message: %v" (Some err)]).
Proof. intros H. unfold readIteration. by rewrite H. Qed.

Lemma readIteration_decoded (c : Client) (payload : list byte) (request : Event) (w : World) :
  unmarshalEvent payload = inl request →
  readIteration c (inl payload) w =
    (Continue,
     let '(err, w1) := reouteEvent request c w in
     match err with
     | Some err => extend w1 [ELog "Error handling Message: " (Some err)]
     | None => w1
     end).
Proof.
  intros H. unfold readIteration. rewrite H. run.
  by destruct (reouteEvent request c w) as [[err|] w1].
Qed.

Lemma readIteration_read_error (c : Client) (err : error) (w : World) :
  (readIteration c (inr err) w).1 = Break.
Proof.
  unfold readIteration. run. by destruct (IsUnexpectedCloseError _ _).
Qed.

Lemma readLoop_cons (c : Client) (rr : list byte + error) rest (w : World) :
  readLoop c (rr :: rest) w =
    match (readIteration c rr w).1 with
    | Break => (Returned, (readIteration c rr w).2)
    | Continue => readLoop c rest (readIteration c rr w).2
    end.
Proof.
  simpl. run. by destruct (readIteration c rr w) as [[] w1].
Qed.

Lemma writeLoop_cons (c : Client) (sel : SelectCase) (we : option error) rest (w : World) :
  writeLoop c ((sel, we) :: rest) w =
    match (writeIteration c sel we w).1 with
    | Break => (Returned, (writeIteration c sel we w).2)
    | Continue => writeLoop c rest (writeIteration c sel we w).2
    end.
Proof.
  simpl. run. by destruct (writeIteration c sel we w) as [[] w1].
Qed.

Lemma readMessages_returned (c : Client) now dl script (w w' : World) :
  readMessages c now dl script w = (Returned, w') →
  clients (manager w') !! addr c = None.
Proof.
  unfold readMessages, defer. run.
  destruct (readPrologue c now dl w) as [[] w1].
  - destruct (readLoop c script w1) as [[] w2]; [|done].
    pose proof (removeClient_gone c w2) as Hg.
    destruct (removeClient c w2) as [[] w3]. by intros [= <-].
  - pose proof (removeClient_gone c w1) as Hg.
    destruct (removeClient c w1) as [[] w3]. by intros [= <-].
Qed.

Lemma WriteMessages_returned (c : Client) script (w w' : World) :
  WriteMessages c script w = (Returned, w') →
  clients (manager w') !! addr c = None.
Proof.
  unfold WriteMessages, defer. run.
  match goal with |- context [writeLoop c script ?w0] =>
    destruct (writeLoop c script w0) as [[] w2] end; [|done].
  match goal with |- context [removeClient c ?w0] =>
    pose proof (removeClient_gone c w0) as Hg;
    destruct (removeClient c w0) as [[] w3] end.
  by intros [= <-].
Qed.

Lemma extend_extend (w : World) (es1 es2 : list effect) :
  extend (extend w es1) es2 = extend w (es1 ++ es2).
Proof. unfold extend. simpl. by rewrite <- app_assoc. Qed.

Lemma frame_extend (w : World) (es : list effect) : frame w (extend w es).
Proof. by repeat split. Qed.

Lemma readMessages_decode_error (c : Client) (now : Z) (payload : list byte)
    (err : error) rest (w : World) :
  unmarshalEvent payload = inr err →
  (readMessages c now None (inl payload :: rest) w).1 = Returned.
Proof.
  intros H. unfold readMessages, defer, readPrologue. run.
  match goal with |- context [readLoop c _ ?w0] =>
    rewrite (readLoop_cons c (inl payload) rest w0);
    rewrite (readIteration_decode_error c payload err w0 H) end.
  simpl. by destruct (removeClient _ _).
Qed.

(** C5: in the read loop, a message that does not decode into an Event is
    logged and ends the loop, whatever follows it on the connection:
    readMessages returns, its deferred cleanup has removed the client from
    the registry and the goroutine is gone.  A message that decodes and
    whose dispatch returns an error is logged and nothing more: the loop
    goes on with the next read, and the registry and the goroutines are as
    they were. *)
Theorem readMessages_error_policy (c : Client) (payload : list byte)
    (rest : list (list byte + error)) (w : World) :
  (∀ err, unmarshalEvent payload = inr err →
     let w1 := extend w [ELog "error marshaling message: %v" (Some err)] in
     readIteration c (inl payload) w = (Break, w1) ∧
     readLoop c (inl payload :: rest) w = (Returned, w1) ∧
     (∀ now,
        (readMessages c now None (inl payload :: rest) w).1 = Returned ∧
        clients (manager (readMessages c now None (inl payload :: rest) w).2)
          !! addr c = None) ∧
     readers (readStep c (inl payload) w).2 !! addr c = None ∧
     clients (manager (readStep c (inl payload) w).2) !! addr c = None) ∧
  (∀ request err, unmarshalEvent payload = inl request →
     (reouteEvent request c w).1 = Some err →
     let w1 := extend (reouteEvent request c w).2
                 [ELog "Error handling Message: " (Some err)] in
     readIteration c (inl payload) w = (Continue, w1) ∧
     readLoop c (inl payload :: rest) w = readLoop c rest w1 ∧
     readStep c (inl payload) w = (tt, w1) ∧
     frame w w1).
Proof.
  split.
  - intros err H w1.
    pose proof (readIteration_decode_error c payload err w H) as Hi.
    split; [done|]. split; [by rewrite readLoop_cons, Hi|]. split.
    + intros now. split; [by eapply readMessages_decode_error|].
      pose proof (readMessages_decode_error c now payload err rest w H) as Hr.
      destruct (readMessages c now None (inl payload :: rest) w) as [r w2] eqn:E.
      simpl in *. subst r. by eapply readMessages_returned.
    + unfold readStep. run. rewrite Hi.
      match goal with |- context [readExit c ?w0] =>
        pose proof (readExit_world c w0) as (Hc&_&_&Hr&_);
        destruct (readExit c w0) as [[] w3] end.
      simpl in *. rewrite Hr, Hc. by rewrite !lookup_delete_eq.
  - intros request err H Herr w1.
    pose proof (readIteration_decoded c payload request w H) as Hi.
    pose proof (frame_reouteEvent request c w) as [Hf _].
    destruct (reouteEvent request c w) as [e w2]. cbn [fst snd] in *. subst e.
    split; [done|]. split; [by rewrite readLoop_cons, Hi|].
    split; [unfold readStep; run; by rewrite Hi|].
    eapply frame_trans; [exact Hf|apply frame_extend].
Qed.

(** C8: in the write loop, the severity of a failed write depends on the
    frame.  When the write of a marshalled envelope from the mailbox fails,
    the error is logged and the loop goes on with its next round, registry
    and goroutine untouched.  When the write of a ping on a tick fails, the
    error is logged and the loop ends, whatever would follow: WriteMessages
    returns, the deferred cleanup stops the ticker and removes the client
    from the registry, and the goroutine is gone. *)
Theorem WriteMessages_error_policy (c : Client) (err : error)
    (rest : list (SelectCase * option error)) (w : World) :
  (∀ message data, marshalEvent message = inl data →
     let w1 := extend w [EWriteMessage (connection c) TextMessage data;
                         ELog EmptyString (Some err);
                         ELog "sent message" None] in
     writeIteration c (RecvEgress message) (Some err) w = (Continue, w1) ∧
     writeLoop c ((RecvEgress message, Some err) :: rest) w = writeLoop c rest w1 ∧
     writeStep c (RecvEgress message) (Some err) w = (tt, w1) ∧
     frame w w1) ∧
  (let w1 := extend w [ELog "ping" None;
                       EWriteMessage (connection c) PingMessage [];
                       ELog "writemsg: " (Some err)] in
   writeIteration c Tick (Some err) w = (Break, w1) ∧
   writeLoop c ((Tick, Some err) :: rest) w = (Returned, w1) ∧
   (WriteMessages c ((Tick, Some err) :: rest) w).1 = Returned ∧
   clients (manager (WriteMessages c ((Tick, Some err) :: rest) w).2) !! addr c = None ∧
   writers (writeStep c Tick (Some err) w).2 !! addr c = None ∧
   clients (manager (writeStep c Tick (Some err) w).2) !! addr c = None).
Proof.
  split.
  - intros message data H w1.
    assert (Hi : writeIteration c (RecvEgress message) (Some err) w = (Continue, w1)).
    { unfold writeIteration. rewrite H. run. subst w1. unfold extend.
      by rewrite <- !app_assoc. }
    split; [done|]. split; [by rewrite writeLoop_cons, Hi|].
    split; [unfold writeStep; run; by rewrite Hi|]. apply frame_extend.
  - intros w1.
    assert (Hi : writeIteration c Tick (Some err) w = (Break, w1)).
    { unfold writeIteration. run. subst w1. unfold extend.
      by rewrite <- !app_assoc. }
    assert (Hr : (WriteMessages c ((Tick, Some err) :: rest) w).1 = Returned).
    { unfold WriteMessages, defer. run.
      match goal with |- context [writeLoop c _ ?w0] =>
        rewrite (writeLoop_cons c Tick (Some err) rest w0) end.
      unfold writeIteration. run. by destruct (removeClient _ _). }
    split; [done|]. split; [by rewrite writeLoop_cons, Hi|].
    split; [done|]. split.
    + destruct (WriteMessages c ((Tick, Some err) :: rest) w) as [r w2] eqn:E.
      simpl in *. subst r. by eapply WriteMessages_returned.
    + unfold writeStep. run. rewrite Hi.
      match goal with |- context [writeExit c ?w0] =>
        pose proof (writeExit_world c w0) as (Hc&_&_&_&Hw);
        destruct (writeExit c w0) as [[] w3] end.
      simpl in *. rewrite Hw, Hc. by rewrite !lookup_delete_eq.
Qed.

(** *** The registry and the lifecycle of a connection *)

Lemma readStep_break (c : Client) (rr : list byte + error) (w : World) :
  (readIteration c rr w).1 = Break →
  readers (readStep c rr w).2 !! addr c = None ∧
  clients (manager (readStep c rr w).2) !! addr c = None.
Proof.
  intros H. unfold readStep. run.
  destruct (readIteration c rr w) as [ctl w1]. simpl in H. subst ctl.
  pose proof (readExit_world c w1) as (Hc&_&_&Hr&_).
  destruct (readExit c w1) as [[] w2]. simpl in *.
  rewrite Hr, Hc. by rewrite !lookup_delete_eq.
Qed.

Lemma writeStep_break (c : Client) (sel : SelectCase) (we : option error) (w : World) :
  (writeIteration c sel we w).1 = Break →
  writers (writeStep c sel we w).2 !! addr c = None ∧
  clients (manager (writeStep c sel we w).2) !! addr c = None.
Proof.
  intros H. unfold writeStep. run.
  destruct (writeIteration c sel we w) as [ctl w1]. simpl in H. subst ctl.
  pose proof (writeExit_world c w1) as (Hc&_&_&_&Hw).
  destruct (writeExit c w1) as [[] w2]. simpl in *.
  rewrite Hw, Hc. by rewrite !lookup_delete_eq.
Qed.

Lemma readStart_break (c : Client) (now : Z) (err : error) (w : World) :
  readers (readStart c now (Some err) w).2 !! addr c = None ∧
  clients (manager (readStart c now (Some err) w).2) !! addr c = None.
Proof.
  unfold readStart, readPrologue. run.
  match goal with |- context [readExit c ?w0] =>
    pose proof (readExit_world c w0) as (Hc&_&_&Hr&_);
    destruct (readExit c w0) as [[] w2] end.
  simpl in *. rewrite Hr, Hc. by rewrite !lookup_delete_eq.
Qed.

(** *** What the send_message handler receives *)

Lemma sendMessageHandler_effects (e : Event) (c : Client) :
  sendMessageHandler e c = ([EPrintln (PEvent e)], None).
Proof. done. Qed.

Lemma sendMessageHandler_no_decode (e : Event) (c : Client) :
  ¬ decodesPayload sendMessageHandler e c.
Proof.
  unfold decodesPayload. rewrite sendMessageHandler_effects. cbn [fst].
  intros H. by apply list_elem_of_singleton in H.
Qed.

(** A handler of the design does decode the payload it is given: the
    property [decodesPayload] tells such handlers from the one of
    setupEventHandlers. *)
Lemma twoStageHandler_decodes decode body (e : Event) (c : Client) :
  decodesPayload (twoStageHandler decode body) e c.
Proof.
  unfold decodesPayload, twoStageHandler.
  destruct (decode (Payload e)) as [sm|err]; [destruct (body sm e c)|];
    apply list_elem_of_here.
Qed.

(** C9 (amended): an inbound message is decoded once, at the transport
    boundary, into an Event {type, raw payload}; for a send_message envelope
    the matching registered handler receives that Event with its payload
    still raw and does not decode it: it prints the Event and returns nil,
    and that is all the dispatch of the message does. *)
Theorem send_message_payload_stays_raw (c : Client) (payload : list byte)
    (request : Event) (w : World) :
  reachable w →
  unmarshalEvent payload = inl request →
  Type_ request = EventSendMessage →
  handlers (manager w) !! Type_ request = Some sendMessageHandler ∧
  sendMessageHandler request c = ([EPrintln (PEvent request)], None) ∧
  ¬ decodesPayload sendMessageHandler request c ∧
  reouteEvent request c w = (None, extend w [EPrintln (PEvent request)]) ∧
  readIteration c (inl payload) w = (Continue, extend w [EPrintln (PEvent request)]).
Proof.
  intros Hw Hd Ht.
  assert (Hl : handlers (manager w) !! Type_ request = Some sendMessageHandler).
  { rewrite (reachable_handlers _ _ Hw). by rewrite decide_True. }
  assert (Hr : reouteEvent request c w = (None, extend w [EPrintln (PEvent request)])).
  { by rewrite (reouteEvent_handler _ _ _ _ Hl). }
  split; [done|]. split; [done|]. split; [apply sendMessageHandler_no_decode|].
  split; [done|].
  by rewrite (readIteration_decoded _ _ _ _ Hd), Hr.
Qed.

(** *** The functions and the transition system agree

    The bodies of the functions do not touch the goroutine tables; a run of
    readMessages or of WriteMessages on a script is a path of the transition
    system, one step per round. *)

Create HintDb oblivious.

Lemma oblivious_ret {A : Type} (a : A) : oblivious (mret a).
Proof. by intros rs ws w. Qed.

Lemma oblivious_bind {A B : Type} (m : M A) (f : A → M B) :
  oblivious m → (∀ a, oblivious (f a)) → oblivious (m ≫= f).
Proof.
  intros Hm Hf rs ws w. unfold mbind, M_bind. rewrite Hm.
  destruct (m w) as [a w1]. simpl. apply Hf.
Qed.

Lemma oblivious_emit (es : list effect) : oblivious (emit es).
Proof. by intros rs ws w. Qed.

Lemma oblivious_getManager : oblivious getManager.
Proof. by intros rs ws w. Qed.

Lemma oblivious_setManager (m : Manager) : oblivious (setManager m).
Proof. by intros rs ws w. Qed.

#[local] Hint Resolve oblivious_ret oblivious_emit oblivious_getManager
  oblivious_setManager : oblivious.

Ltac oblivious :=
  repeat first
    [ progress auto with oblivious
    | apply oblivious_bind; [|intros ?]
    | match goal with
      | |- oblivious (match ?x with _ => _ end) => destruct x
      | |- oblivious (let '(_, _) := ?x in _) => destruct x
      end ].

Lemma oblivious_logErr (msg : string) (err : error) : oblivious (logErr msg err).
Proof. unfold logErr. oblivious. Qed.

Lemma oblivious_logMsg (msg : string) : oblivious (logMsg msg).
Proof. unfold logMsg. oblivious. Qed.

Lemma oblivious_setClients cs : oblivious (setClients cs).
Proof. unfold setClients. oblivious. Qed.

#[local] Hint Resolve oblivious_logErr oblivious_logMsg oblivious_setClients : oblivious.

Lemma oblivious_removeClient (c : Client) : oblivious (removeClient c).
Proof. unfold removeClient. oblivious. Qed.

Lemma oblivious_reouteEvent (e : Event) (c : Client) : oblivious (reouteEvent e c).
Proof. unfold reouteEvent. oblivious. Qed.

#[local] Hint Resolve oblivious_removeClient oblivious_reouteEvent : oblivious.

Lemma oblivious_readPrologue (c : Client) now dl : oblivious (readPrologue c now dl).
Proof. unfold readPrologue. oblivious. Qed.

Lemma oblivious_readIteration (c : Client) rr : oblivious (readIteration c rr).
Proof. unfold readIteration. oblivious. Qed.

Lemma oblivious_writeIteration (c : Client) sel we : oblivious (writeIteration c sel we).
Proof. unfold writeIteration. oblivious. Qed.

Lemma withTables_id (w : World) : withTables (readers w) (writers w) w = w.
Proof. by destruct w. Qed.

Lemma readExit_eq (c : Client) (w : World) :
  (readExit c w).2 =
    withTables (delete (addr c) (readers w)) (writers w) (removeClient c w).2.
Proof.
  unfold readExit. run.
  pose proof (removeClient_frame c w) as (_&_&_&_&Hr&Hw).
  destruct (removeClient c w) as [[] w1]. simpl in *. by rewrite Hr, Hw.
Qed.

Lemma writeExit_eq (c : Client) (w : World) :
  (writeExit c w).2 =
    withTables (readers w) (delete (addr c) (writers w))
      (removeClient c (extend w [ETickerStop])).2.
Proof.
  unfold writeExit. run. fold (extend w [ETickerStop]).
  pose proof (removeClient_frame c (extend w [ETickerStop])) as (_&_&_&_&Hr&Hw).
  destruct (removeClient c (extend w [ETickerStop])) as [[] w1].
  simpl in *. by rewrite Hr, Hw.
Qed.

Lemma readStep_eq (c : Client) rr (w : World) :
  (readStep c rr w).2 =
    match (readIteration c rr w).1 with
    | Continue => (readIteration c rr w).2
    | Break => (readExit c (readIteration c rr w).2).2
    end.
Proof. unfold readStep. run. by destruct (readIteration c rr w) as [[] w1]. Qed.

Lemma writeStep_eq (c : Client) sel we (w : World) :
  (writeStep c sel we w).2 =
    match (writeIteration c sel we w).1 with
    | Continue => (writeIteration c sel we w).2
    | Break => (writeExit c (writeIteration c sel we w).2).2
    end.
Proof. unfold writeStep. run. by destruct (writeIteration c sel we w) as [[] w1]. Qed.

Lemma readStart_eq (c : Client) now dl (w : World) :
  (readStart c now dl w).2 =
    match (readPrologue c now dl w).1 with
    | Continue =>
        withTables (<[addr c := (Looping, c)]> (readers (readPrologue c now dl w).2))
          (writers (readPrologue c now dl w).2) (readPrologue c now dl w).2
    | Break => (readExit c (readPrologue c now dl w).2).2
    end.
Proof. unfold readStart. run. by destruct (readPrologue c now dl w) as [[] w1]. Qed.

Lemma readMessages_eq (c : Client) now dl script (w : World) :
  readMessages c now dl script w =
    match (readPrologue c now dl w).1 with
    | Break => (Returned, (removeClient c (readPrologue c now dl w).2).2)
    | Continue =>
        match (readLoop c script (readPrologue c now dl w).2).1 with
        | Returned =>
            (Returned, (removeClient c (readLoop c script (readPrologue c now dl w).2).2).2)
        | Blocked => (Blocked, (readLoop c script (readPrologue c now dl w).2).2)
        end
    end.
Proof.
  unfold readMessages. run.
  destruct (readPrologue c now dl w) as [[] w1]; cbn [fst snd].
  - destruct (readLoop c script w1) as [[] w2]; cbn [fst snd]; [|done].
    by destruct (removeClient c w2) as [[] w3].
  - by destruct (removeClient c w1) as [[] w3].
Qed.

Lemma WriteMessages_eq (c : Client) script (w : World) :
  WriteMessages c script w =
    let w0 := extend w [ENewTicker pingInterval] in
    match (writeLoop c script w0).1 with
    | Returned =>
        (Returned, (removeClient c (extend (writeLoop c script w0).2 [ETickerStop])).2)
    | Blocked => (Blocked, (writeLoop c script w0).2)
    end.
Proof.
  unfold WriteMessages. run. fold (extend w [ENewTicker pingInterval]).
  destruct (writeLoop c script _) as [[] w2]; cbn [fst snd]; [|done].
  fold (extend w2 [ETickerStop]).
  by destruct (removeClient c _) as [[] w3].
Qed.

Lemma withTables_withTables rs ws rs' ws' (w : World) :
  withTables rs' ws' (withTables rs ws w) = withTables rs' ws' w.
Proof. done. Qed.

Lemma readLoop_steps (c : Client) (script : list (list byte + error)) :
  ∀ rs ws w,
    rs !! addr c = Some (Looping, c) →
    rtc step (withTables rs ws w)
      (match (readLoop c script w).1 with
       | Blocked => withTables rs ws (readLoop c script w).2
       | Returned =>
           withTables (delete (addr c) rs) ws
             (removeClient c (readLoop c script w).2).2
       end).
Proof.
  induction script as [|rr rest IH]; intros rs ws w Hr; [apply rtc_refl|].
  rewrite readLoop_cons.
  assert (Hs : step (withTables rs ws w) (readStep c rr (withTables rs ws w)).2)
    by by eapply step_read.
  rewrite readStep_eq, (oblivious_readIteration c rr rs ws w) in Hs.
  cbn [fst snd] in Hs.
  destruct (readIteration c rr w) as [[] w1]; cbn [fst snd] in *.
  - eapply rtc_l; [exact Hs|]. by apply IH.
  - apply rtc_once.
    by rewrite readExit_eq, oblivious_removeClient in Hs.
Qed.

(** A run of readMessages is a path of the transition system: it ends in
    the world the function computes, with the goroutine gone when the
    function returned and inside its loop when it waits for input. *)
Lemma readMessages_steps (c : Client) now dl script rs ws (w : World) :
  rs !! addr c = Some (Spawned, c) →
  rtc step (withTables rs ws w)
    (withTables
       (match (readMessages c now dl script w).1 with
        | Returned => delete (addr c) rs
        | Blocked => <[addr c := (Looping, c)]> rs
        end) ws (readMessages c now dl script w).2).
Proof.
  intros Hr.
  assert (Hs : step (withTables rs ws w) (readStart c now dl (withTables rs ws w)).2)
    by by eapply step_read_start.
  rewrite readStart_eq, (oblivious_readPrologue c now dl rs ws w) in Hs.
  cbn [fst snd] in Hs.
  rewrite readMessages_eq.
  destruct (readPrologue c now dl w) as [[] w1]; cbn [fst snd] in *.
  - eapply rtc_l; [exact Hs|].
    pose proof (readLoop_steps c script (<[addr c := (Looping, c)]> rs) ws w1
                  (lookup_insert_eq _ _ _)) as Hl.
    destruct (readLoop c script w1) as [[] w2]; cbn [fst snd] in *; [|exact Hl].
    by rewrite delete_insert_eq in Hl.
  - apply rtc_once.
    by rewrite readExit_eq, oblivious_removeClient in Hs.
Qed.

Lemma writeLoop_steps (c : Client) (script : list (SelectCase * option error)) :
  ∀ rs ws w,
    ws !! addr c = Some (Looping, c) →
    rtc step (withTables rs ws w)
      (match (writeLoop c script w).1 with
       | Blocked => withTables rs ws (writeLoop c script w).2
       | Returned =>
           withTables rs (delete (addr c) ws)
             (removeClient c (extend (writeLoop c script w).2 [ETickerStop])).2
       end).
Proof.
  induction script as [|[sel we] rest IH]; intros rs ws w Hw; [apply rtc_refl|].
  rewrite writeLoop_cons.
  assert (Hs : step (withTables rs ws w) (writeStep c sel we (withTables rs ws w)).2)
    by by eapply step_write.
  rewrite writeStep_eq, (oblivious_writeIteration c sel we rs ws w) in Hs.
  cbn [fst snd] in Hs.
  destruct (writeIteration c sel we w) as [[] w1]; cbn [fst snd] in *.
  - eapply rtc_l; [exact Hs|]. by apply IH.
  - apply rtc_once. rewrite writeExit_eq in Hs.
    change (extend (withTables rs ws w1) [ETickerStop])
      with (withTables rs ws (extend w1 [ETickerStop])) in Hs.
    by rewrite oblivious_removeClient in Hs.
Qed.

(** Likewise for WriteMessages. *)
Lemma WriteMessages_steps (c : Client) script rs ws (w : World) :
  ws !! addr c = Some (Spawned, c) →
  rtc step (withTables rs ws w)
    (withTables rs
       (match (WriteMessages c script w).1 with
        | Returned => delete (addr c) ws
        | Blocked => <[addr c := (Looping, c)]> ws
        end) (WriteMessages c script w).2).
Proof.
  intros Hw.
  assert (Hs : step (withTables rs ws w) (writeStart c (withTables rs ws w)).2)
    by by eapply step_write_start.
  rewrite WriteMessages_eq. cbv zeta.
  eapply rtc_l; [exact Hs|].
  change (writeStart c (withTables rs ws w)).2
    with (withTables rs (<[addr c := (Looping, c)]> ws)
            (extend w [ENewTicker pingInterval])).
  pose proof (writeLoop_steps c script rs (<[addr c := (Looping, c)]> ws)
                (extend w [ENewTicker pingInterval]) (lookup_insert_eq _ _ _)) as Hl.
  destruct (writeLoop c script _) as [[] w2]; cbn [fst snd] in *; [|exact Hl].
  by rewrite delete_insert_eq in Hl.
Qed.

(** * Further properties of the code *)

(** ** addClient and removeClient *)

Lemma addClient_world (c : Client) (w : World) :
  addClient c w =
    (tt, mkWorld (mkManager (<[addr c := true]> (clients (manager w)))
                            (handlers (manager w)) (otps (manager w)))
                 (next w) (readers w) (writers w) (trace w)).
Proof. unfold addClient. by run. Qed.

(** X1: addClient registers the client, and registering a client that is
    already registered changes nothing more; for a client that was not
    registered, removeClient undoes addClient: the world is the one before,
    but for the one close of the client's connection. *)
Theorem addClient_removeClient (c : Client) (w : World) :
  clients (manager (addClient c w).2) !! addr c = Some true ∧
  addClient c (addClient c w).2 = addClient c w ∧
  (clients (manager w) !! addr c = None →
   (removeClient c (addClient c w).2).2 = extend w [EClose (connection c)]).
Proof.
  rewrite !addClient_world. cbn [fst snd manager clients handlers otps next
    readers writers trace].
  split; [apply lookup_insert_eq|]. split; [by rewrite insert_insert_eq|].
  intros Hn.
  erewrite removeClient_present by (cbn; apply lookup_insert_eq).
  cbn [fst snd manager clients handlers otps next readers writers trace].
  rewrite delete_insert_id by done.
  unfold extend. by destruct w as [[cs hs os] n rs ws t].
Qed.

(** X2: removeClient is about its client only: every other client stays
    registered or unregistered as it was, and no connection but the
    client's own is closed. *)
Theorem removeClient_others (c : Client) (w : World) :
  (∀ a, a ≠ addr c →
     clients (manager (removeClient c w).2) !! a = clients (manager w) !! a) ∧
  (∀ conn, conn ≠ connection c →
     closes conn (trace (removeClient c w).2) = closes conn (trace w)).
Proof.
  destruct (clients (manager w) !! addr c) as [b|] eqn:E.
  - rewrite (removeClient_present _ _ _ E). simpl. split.
    + intros a Ha. by rewrite lookup_delete_ne.
    + intros conn Hc. rewrite closes_app. simpl.
      destruct (Pos.eqb_spec (connection c) conn); [congruence|lia].
  - by rewrite (removeClient_absent _ _ E).
Qed.

(** ** loginHandler *)

Lemma loginHandler_issued (key : string) (now : Z) (data : list byte + error) (w : World) :
  loginHandler (inl ("arti", "123")) key now data w =
    (tt, mkWorld (mkManager (clients (manager w)) (handlers (manager w))
                            (<[key := mkOTP key now]> (otps (manager w))))
                 (next w) (readers w) (writers w)
                 (trace w ++ match data with
                             | inl data => [EWriteHeader StatusOK; EWrite data]
                             | inr err => [ELog EmptyString (Some err)]
                             end)).
Proof. unfold loginHandler. simpl. run. by destruct data. Qed.

(** X3: loginHandler issues a token for the one pair of credentials it
    knows and for nothing else.  A body that does not decode is answered
    400 and any other pair of credentials 401, and in both cases the
    manager, the token store included, is as before. *)
Theorem loginHandler_rejects (body : string * string + error) (key : string)
    (now : Z) (data : list byte + error) (w : World) :
  body ≠ inl ("arti", "123") →
  loginHandler body key now data w =
    (tt, extend w [match body with
                   | inr err => EHttpError err StatusBadRequest
                   | inl _ => EWriteHeader StatusUnauthorized
                   end]).
Proof.
  intros Hb. unfold loginHandler. destruct body as [[u pw]|err]; [|done].
  destruct (String.eqb_spec u "arti") as [->|Hu];
    [destruct (String.eqb_spec pw "123") as [->|Hp]; [done|]|]; done.
Qed.

(** X4: login, then connect within the retention window.  In a reachable
    state of the server, a login with the right credentials issues the token
    [key]; a request to serveWS carrying it, made no later than the
    retention window after the login and whose handshake succeeds,
    registers a new client under a fresh address, beside all the clients
    there were, so that the count goes up by one; both loops of the client
    are started; and the token is used up.  A request that comes later than
    the window is answered 401 and registers nobody. *)
Theorem login_then_serveWS (key : string) (issued now : Z) (data : list byte + error)
    (r : Request) (handshake : Handshake) (conn : Conn) (w : World) :
  reachable w →
  key ≠ EmptyString →
  Get (query r) "otp" = key →
  outcome handshake = inl conn →
  let w1 := (loginHandler (inl ("arti", "123")) key issued data w).2 in
  let w2 := (serveWS r now handshake w1).2 in
  let client := mkClient (next w) conn in
  (now - issued ≤ otpRetention →
   clients (manager w) !! next w = None ∧
   clients (manager w2) = <[next w := true]> (clients (manager w)) ∧
   size (clients (manager w2)) = S (size (clients (manager w))) ∧
   readers w2 = <[next w := (Spawned, client)]> (readers w) ∧
   writers w2 = <[next w := (Spawned, client)]> (writers w) ∧
   otps (manager w2) = delete key (otps (manager w)) ∧
   reachable w2) ∧
  (otpRetention < now - issued →
   serveWS r now handshake w1 =
     (tt, extend w1 [EPrintln (PString key); EWriteHeader StatusUnauthorized])).
Proof.
  intros Hw Hk Hq Ho w1 w2 client.
  pose proof (reachable_Inv w Hw) as HI.
  assert (E1 : w1 = (loginHandler (inl ("arti", "123")) key issued data w).2) by done.
  rewrite loginHandler_issued in E1. cbn [snd] in E1.
  assert (Hl : otps (manager w1) !! Get (query r) "otp" = Some (mkOTP key issued)).
  { rewrite Hq, E1. cbn [manager otps]. apply lookup_insert_eq. }
  split.
  - intros Hin.
    assert (Hfresh : clients (manager w) !! next w = None).
    { destruct (clients (manager w) !! next w) as [b|] eqn:E; [|done].
      assert (Hs : is_Some (clients (manager w) !! next w)) by by rewrite E.
      apply (inv_clients _ HI) in Hs as [[[p c] Hr] _].
      destruct (inv_readers _ HI _ _ _ Hr). lia. }
    assert (Hw2 : reachable w2).
    { eapply rtc_r; [eapply rtc_r; [exact Hw|]|]; [apply step_login|apply step_serveWS]. }
    assert (Hv : VerifyOTP otpRetention now (Get (query r) "otp") (otps (manager w1)) =
                 (true, delete key (otps (manager w)))).
    { rewrite (VerifyOTP_live _ _ _ _ _ Hl) by done.
      rewrite Hq, E1. cbn [manager otps]. by rewrite delete_insert_eq. }
    assert (E2 : w2 = (serveWS r now handshake w1).2) by done.
    rewrite (serveWS_accepted r now handshake conn w1 _ ltac:(by rewrite Hq) Hv Ho) in E2.
    cbn [snd] in E2. rewrite E1 in E2. cbn [manager clients handlers otps next
      readers writers trace] in E2.
    split; [done|]. split; [by rewrite E2|].
    split; [rewrite E2; by apply map_size_insert_None|].
    split; [by rewrite E2|]. split; [by rewrite E2|]. split; [by rewrite E2|done].
  - intros Hout. rewrite <- Hq. apply serveWS_rejected. right.
    by rewrite (VerifyOTP_expired _ _ _ _ _ Hl).
Qed.

(** X5: a handshake that fails costs the token.  serveWS verifies the token
    before it upgrades: when the token is live and the upgrade then fails,
    serveWS logs the error and registers nobody, but the token is gone from
    the store, and the same request again, whenever it comes, is answered
    401. *)
Theorem serveWS_failed_upgrade_uses_token (r : Request) (now : Z) (handshake : Handshake)
    (err : error) (o : OTP) (w : World) :
  Get (query r) "otp" ≠ EmptyString →
  otps (manager w) !! Get (query r) "otp" = Some o →
  now - Created o ≤ otpRetention →
  outcome handshake = inr err →
  let w1 := (serveWS r now handshake w).2 in
  trace w1 = trace w ++ [EPrintln (PString (Get (query r) "otp"));
                         ELog "New connections" None; EUpgrade r;
                         ELog EmptyString (Some err)] ∧
  frame w w1 ∧
  otps (manager w1) = delete (Get (query r) "otp") (otps (manager w)) ∧
  ∀ now' handshake',
    serveWS r now' handshake' w1 =
      (tt, extend w1 [EPrintln (PString (Get (query r) "otp"));
                      EWriteHeader StatusUnauthorized]).
Proof.
  intros Hne Hs Hl Ho w1.
  pose proof (VerifyOTP_live _ _ _ _ _ Hs Hl) as Hv.
  assert (E : w1 = (serveWS r now handshake w).2) by done.
  rewrite (serveWS_upgrade_error _ _ _ _ _ _ Hne Hv Ho) in E. cbn [snd] in E.
  rewrite E. cbn [manager clients handlers otps next readers writers trace].
  split; [done|]. split; [by repeat split|]. split; [done|].
  intros now' handshake'. rewrite <- E. apply serveWS_rejected. right.
  rewrite E. cbn [manager otps]. by rewrite VerifyOTP_absent by apply lookup_delete_eq.
Qed.

(** ** The read loop, round by round *)

Lemma readIteration_control (c : Client) (rr : list byte + error) (w : World) :
  (readIteration c rr w).1 = if fatal rr then Break else Continue.
Proof.
  destruct rr as [payload|err]; [|apply readIteration_read_error].
  unfold fatal. destruct (unmarshalEvent payload) as [request|err] eqn:E.
  - by rewrite (readIteration_decoded _ _ _ _ E).
  - by rewrite (readIteration_decode_error _ _ _ _ E).
Qed.

(** X6: a read error always ends the read loop, and it is logged in one
    case only: when it is a close error whose code is neither going-away
    (1001) nor abnormal-closure (1006).  Every other error, the timeout of
    the read deadline among them, ends the loop without a line in the log. *)
Theorem readIteration_read_error_policy (c : Client) (err : error) (w : World) :
  let unexpected := IsUnexpectedCloseError err [CloseGoingAway; CloseAbnormalClosure] in
  readIteration c (inr err) w =
    (Break,
     if unexpected then extend w [ELog "error reading a message: %v" (Some err)] else w) ∧
  (unexpected = true ↔
   ∃ code, err = CloseError code ∧ code ≠ CloseGoingAway ∧ code ≠ CloseAbnormalClosure).
Proof.
  intros unexpected. split.
  - unfold readIteration. run. fold unexpected. by destruct unexpected.
  - subst unexpected. unfold IsUnexpectedCloseError.
    destruct err as [| |code|msg]; try (split; [done|by intros (?&?&_)]).
    rewrite negb_true_iff, bool_decide_eq_false. split.
    + intros Hn. exists code. split; [done|].
      split; intros ->; apply Hn; [apply list_elem_of_here|].
      apply list_elem_of_further, list_elem_of_here.
    + intros (code' & [= <-] & H1 & H2) Hin.
      apply elem_of_cons in Hin as [->|Hin]; [done|].
      apply elem_of_cons in Hin as [->|Hin]; [done|].
      by apply elem_of_nil in Hin.
Qed.

(** X7: when SetReadDeadline fails at the start of readMessages, the
    function logs the error and returns at once: no pong handler is
    installed, nothing is read whatever the peer has sent, and the deferred
    cleanup removes the client. *)
Theorem readMessages_deadline_failure (c : Client) (now : Z) (err : error)
    (script : list (list byte + error)) (w : World) :
  readMessages c now (Some err) script w =
    (Returned,
     (removeClient c
        (extend w [ESetReadLimit (connection c) 1024;
                   ESetReadDeadline (connection c) (now + pongWait);
                   ELog EmptyString (Some err)])).2) ∧
  clients (manager (readMessages c now (Some err) script w).2) !! addr c = None.
Proof.
  assert (E : readMessages c now (Some err) script w =
    (Returned,
     (removeClient c
        (extend w [ESetReadLimit (connection c) 1024;
                   ESetReadDeadline (connection c) (now + pongWait);
                   ELog EmptyString (Some err)])).2)).
  { rewrite readMessages_eq. unfold readPrologue. run. unfold extend.
    by rewrite <- !app_assoc. }
  split; [exact E|]. rewrite E. apply removeClient_gone.
Qed.

Lemma frame_readLoop (c : Client) (script : list (list byte + error)) :
  ∀ w, frame w (readLoop c script w).2.
Proof.
  induction script as [|rr rest IH]; intros w; [apply frame_refl|].
  rewrite readLoop_cons. pose proof (frame_readIteration c rr w) as Hf.
  destruct (readIteration c rr w) as [[] w1]; cbn [fst snd] in *; [|done].
  eapply frame_trans; [exact Hf|apply IH].
Qed.

(** X8: the read loop ends exactly at the first fatal round: a read error
    or a message that does not decode.  It returns if and only if the peer's
    input has such a round, never looks at what comes after it, and as long
    as there is none it stays in the loop with the registry untouched:
    events nobody handles do not disconnect a client. *)
Theorem readLoop_outcome (c : Client) (script : list (list byte + error)) (w : World) :
  (readLoop c script w).1 = (if existsb fatal script then Returned else Blocked) ∧
  readLoop c script w = readLoop c (upto fatal script) w ∧
  frame w (readLoop c script w).2 ∧
  ∀ now, (readMessages c now None script w).1 = (readLoop c script w).1.
Proof.
  split; [|split; [|split]].
  - revert w. induction script as [|rr rest IH]; intros w; [done|].
    rewrite readLoop_cons, readIteration_control. simpl.
    destruct (fatal rr); [done|]. apply IH.
  - revert w. induction script as [|rr rest IH]; intros w; [done|].
    cbn [upto]. destruct (fatal rr) eqn:E.
    + by rewrite !readLoop_cons, !readIteration_control, E.
    + rewrite !readLoop_cons, !readIteration_control, E. apply IH.
  - apply frame_readLoop.
  - intros now. rewrite readMessages_eq. unfold readPrologue. run.
    assert (H : ∀ w0 w1, (readLoop c script w0).1 = (readLoop c script w1).1).
    { clear. induction script as [|rr rest IH]; intros w0 w1; [done|].
      rewrite !readLoop_cons, !readIteration_control.
      destruct (fatal rr); [done|]. apply IH. }
    match goal with |- context [readLoop c script ?w0] =>
      rewrite (H w w0); by destruct (readLoop c script w0) as [[] ?] end.
Qed.

(** ** The write loop, round by round *)

Lemma sent_app (conn : Conn) (t1 t2 : list effect) :
  sent conn (t1 ++ t2) = sent conn t1 ++ sent conn t2.
Proof.
  induction t1 as [|e t1 IH]; [done|].
  destruct e; simpl; rewrite ?IH; try done.
  by destruct (Pos.eqb _ _).
Qed.

Lemma closeCount_app (t1 t2 : list effect) :
  closeCount (t1 ++ t2) = (closeCount t1 + closeCount t2)%nat.
Proof. induction t1 as [|e t1 IH]; [done|]. destruct e; simpl; rewrite IH; lia. Qed.

Lemma tickersStarted_app (t1 t2 : list effect) :
  tickersStarted (t1 ++ t2) = (tickersStarted t1 + tickersStarted t2)%nat.
Proof. induction t1 as [|e t1 IH]; [done|]. destruct e; simpl; rewrite IH; lia. Qed.

Lemma tickersStopped_app (t1 t2 : list effect) :
  tickersStopped (t1 ++ t2) = (tickersStopped t1 + tickersStopped t2)%nat.
Proof. induction t1 as [|e t1 IH]; [done|]. destruct e; simpl; rewrite IH; lia. Qed.

(** What one round of the write loop does, as a list of effects. *)
Lemma writeIteration_effects (c : Client) (sel : SelectCase) (we : option error) (w : World) :
  ∃ es,
    writeIteration c sel we w =
      (if ending (sel, we) then Break else Continue, extend w es) ∧
    sent (connection c) es = frameOf (sel, we) ∧
    closeCount es = 0%nat ∧ tickersStarted es = 0%nat ∧ tickersStopped es = 0%nat.
Proof.
  unfold writeIteration, ending, frameOf, extend.
  destruct sel as [message| |].
  - destruct (marshalEvent message) as [data|err].
    + destruct we as [err|]; run; rewrite <- ?app_assoc;
        eexists; (split; [reflexivity|]); simpl; by rewrite Pos.eqb_refl.
    + run. eexists; (split; [reflexivity|]); done.
  - destruct we as [err|]; run; rewrite <- ?app_assoc;
      eexists; (split; [reflexivity|]); simpl; by rewrite Pos.eqb_refl.
  - destruct we as [err|]; run; rewrite <- ?app_assoc;
      eexists; (split; [reflexivity|]); simpl; by rewrite Pos.eqb_refl.
Qed.

Lemma writeLoop_effects (c : Client) (script : list (SelectCase * option error)) :
  ∀ w, ∃ es,
    writeLoop c script w =
      (if existsb ending script then Returned else Blocked, extend w es) ∧
    sent (connection c) es = concat (map frameOf (upto ending script)) ∧
    closeCount es = 0%nat ∧ tickersStarted es = 0%nat ∧ tickersStopped es = 0%nat.
Proof.
  induction script as [|[sel we] rest IH]; intros w.
  { exists []. unfold extend. rewrite app_nil_r. by destruct w. }
  destruct (writeIteration_effects c sel we w) as (es1 & E1 & S1 & C1 & T1 & U1).
  rewrite writeLoop_cons, E1. cbn [fst snd existsb upto map].
  destruct (ending (sel, we)); cbn [orb].
  - exists es1. simpl. by rewrite app_nil_r.
  - destruct (IH (extend w es1)) as (es2 & E2 & S2 & C2 & T2 & U2).
    exists (es1 ++ es2). rewrite E2, extend_extend. split; [done|].
    rewrite sent_app, closeCount_app, tickersStarted_app, tickersStopped_app.
    rewrite S1, S2, C1, C2, T1, T2, U1, U2. done.
Qed.

(** X9: what the write loop puts on the wire.  The loop hands to the
    connection, in the order of its rounds, one text frame for each envelope
    from the mailbox, one ping for each tick and one close frame when the
    mailbox is closed, up to and including the first round that ends it: a
    closed mailbox, an envelope that does not marshal (no frame), or a ping
    whose write fails.  It returns if and only if there is such a round, and
    nothing goes out after it. *)
Theorem writeLoop_frames (c : Client) (script : list (SelectCase * option error)) (w : World) :
  (writeLoop c script w).1 = (if existsb ending script then Returned else Blocked) ∧
  sent (connection c) (trace (writeLoop c script w).2) =
    sent (connection c) (trace w) ++ concat (map frameOf (upto ending script)) ∧
  frame w (writeLoop c script w).2.
Proof.
  destruct (writeLoop_effects c script w) as (es & E & S & _).
  rewrite E. cbn [fst snd]. split; [done|]. split; [|apply frame_extend].
  unfold extend. cbn [trace]. by rewrite sent_app, S.
Qed.

(** X10: the ticker of the write loop.  WriteMessages starts exactly one
    ticker, with the ping interval, before anything else; the ticker is
    stopped exactly once when the function returns and is still running
    while the function is in its loop; and a return always leaves the client
    out of the registry. *)
Theorem WriteMessages_ticker (c : Client) (script : list (SelectCase * option error)) (w : World) :
  let r := WriteMessages c script w in
  r.1 = (if existsb ending script then Returned else Blocked) ∧
  (∃ es, trace r.2 = trace w ++ ENewTicker pingInterval :: es) ∧
  tickersStarted (trace r.2) = S (tickersStarted (trace w)) ∧
  tickersStopped (trace r.2) =
    (tickersStopped (trace w) + if existsb ending script then 1 else 0)%nat ∧
  (existsb ending script = true → clients (manager r.2) !! addr c = None).
Proof.
  intros r. subst r. rewrite WriteMessages_eq. cbv zeta.
  destruct (writeLoop_effects c script (extend w [ENewTicker pingInterval]))
    as (es & E & _ & _ & T & U).
  rewrite E. cbn [fst snd]. rewrite !extend_extend.
  destruct (existsb ending script); cbn [fst snd].
  - match goal with |- context [removeClient c ?w0] =>
      pose proof (removeClient_gone c w0) as Hg;
      destruct (clients (manager w0) !! addr c) as [b|] eqn:Hb;
      [rewrite (removeClient_present c w0 b Hb) in *
      |rewrite (removeClient_absent c w0 Hb) in *] end;
    unfold extend in *; cbn [fst snd manager clients trace] in *;
    rewrite <- ?app_assoc; cbn [app];
    (split; [done|]); (split; [by eexists|]);
    rewrite ?tickersStarted_app, ?tickersStopped_app; simpl;
    rewrite ?tickersStarted_app, ?tickersStopped_app, ?T, ?U; simpl;
    (split; [lia|]); (split; [lia|done]).
  - unfold extend; cbn [trace]. split; [done|]. split; [by eexists|].
    rewrite tickersStarted_app, tickersStopped_app. simpl. rewrite T, U.
    split; [lia|]. split; [lia|done].
Qed.

(** ** Invariants of the running server *)

(** X11: nothing changes the handler table after NewManager: in every
    reachable state it holds the send_message handler of
    setupEventHandlers and no other. *)
Theorem handlers_never_change (w : World) :
  reachable w →
  handlers (manager w) = {[ EventSendMessage := sendMessageHandler ]}.
Proof.
  intros Hw. rewrite (inv_handlers _ (reachable_Inv _ Hw)).
  unfold NewManager, setupEventHandlers. cbn [handlers]. by rewrite insert_empty.
Qed.

Lemma accounted_same (w w' : World) :
  clients (manager w') = clients (manager w) → next w' = next w →
  closeCount (trace w') = closeCount (trace w) →
  accounted w → accounted w'.
Proof. unfold accounted. by intros -> -> ->. Qed.

Lemma accounted_removeClient (c : Client) (w : World) :
  accounted w → accounted (removeClient c w).2.
Proof.
  intros H. destruct (clients (manager w) !! addr c) as [b|] eqn:E.
  - rewrite (removeClient_present _ _ _ E). unfold accounted in *.
    cbn [snd trace manager clients next].
    rewrite closeCount_app, map_size_delete_Some by by rewrite E.
    assert (Hs : size (clients (manager w)) ≠ 0%nat)
      by (eapply map_size_ne_0_lookup_2; by rewrite E).
    simpl. lia.
  - by rewrite (removeClient_absent _ _ E).
Qed.

Lemma closes_quiet (conn : Conn) (es : list effect) :
  closeCount es = 0%nat → closes conn es = 0%nat.
Proof.
  induction es as [|e es IH]; [done|]. by destruct e.
Qed.

Lemma quiet_refl (w : World) : quiet w w.
Proof. repeat split. exists []. by rewrite app_nil_r. Qed.

Lemma quiet_trans (w1 w2 w3 : World) : quiet w1 w2 → quiet w2 w3 → quiet w1 w3.
Proof.
  intros (Hc&Hn&Hr&Hw&es&Ht&Hq) (Hc'&Hn'&Hr'&Hw'&es'&Ht'&Hq').
  repeat split; try congruence.
  exists (es ++ es'). rewrite Ht', Ht, app_assoc, closeCount_app. split; [done|lia].
Qed.

Lemma quiet_extend (w : World) (es : list effect) :
  closeCount es = 0%nat → quiet w (extend w es).
Proof. intros H. repeat split. by exists es. Qed.

Lemma quiet_loginHandler body key now data (w : World) :
  quiet w (loginHandler body key now data w).2.
Proof.
  destruct (decide (body = inl ("arti", "123"))) as [->|Hb].
  - rewrite loginHandler_issued. repeat split. eexists. split; [reflexivity|].
    by destruct data.
  - rewrite (loginHandler_rejects _ _ _ _ _ Hb). apply quiet_extend. by destruct body.
Qed.

Lemma quiet_readPrologue (c : Client) now dl (w : World) :
  quiet w (readPrologue c now dl w).2.
Proof.
  unfold readPrologue. destruct dl; run; repeat split; rewrite <- ?app_assoc;
    by eexists.
Qed.

Lemma quiet_readIteration (c : Client) rr (w : World) :
  handlers (manager w) = handlers NewManager →
  quiet w (readIteration c rr w).2.
Proof.
  intros Hh. destruct rr as [payload|err].
  - destruct (unmarshalEvent payload) as [request|err] eqn:E.
    + rewrite (readIteration_decoded _ _ _ _ E). cbn [snd].
      pose proof (handlers_NewManager (Type_ request)) as Hl. rewrite <- Hh in Hl.
      case_decide.
      * rewrite (reouteEvent_handler _ _ _ _ Hl). by apply (quiet_extend w [_]).
      * rewrite (reouteEvent_no_handler _ _ _ Hl). by apply quiet_extend.
    + rewrite (readIteration_decode_error _ _ _ _ E). by apply quiet_extend.
  - unfold readIteration. run. destruct (IsUnexpectedCloseError _ _);
      [by apply (quiet_extend w [_])|apply quiet_refl].
Qed.

Lemma quiet_writeIteration (c : Client) sel we (w : World) :
  quiet w (writeIteration c sel we w).2.
Proof.
  destruct (writeIteration_effects c sel we w) as (es & E & _ & Hq & _).
  rewrite E. by apply quiet_extend.
Qed.

Lemma NoDup_fmap_inj_on {A B : Type} (f : A → B) (l : list A) (x y : A) :
  NoDup (map f l) → x ∈ l → y ∈ l → f x = f y → x = y.
Proof.
  induction l as [|z l IH]; simpl; [by intros _ H%elem_of_nil|].
  intros Hnd Hx Hy Hf. apply NoDup_cons in Hnd as [Hz Hnd].
  apply elem_of_cons in Hx as [->|Hx]; apply elem_of_cons in Hy as [->|Hy].
  - done.
  - exfalso. apply Hz. rewrite Hf. by apply (list_elem_of_fmap_2 f).
  - exfalso. apply Hz. rewrite <- Hf. by apply (list_elem_of_fmap_2 f).
  - by apply IH.
Qed.

Lemma Acc_quiet (cs : list Client) (w w' : World) : quiet w w' → Acc cs w → Acc cs w'.
Proof.
  intros (Hc&Hn&Hr&Hw&es&Ht&Hq) [A1 A2 A3 A4 A5 A6 A7 A8].
  split; rewrite ?Hc, ?Hn, ?Hr, ?Hw; try done.
  - eapply accounted_same, A6; try done. rewrite Ht, closeCount_app. lia.
  - intros conn Hconn. rewrite Ht, closes_app, (A7 _ Hconn), closes_quiet; done.
  - intros Hnd c Hin. rewrite Ht, closes_app, (A8 Hnd _ Hin), closes_quiet by done.
    lia.
Qed.

Lemma Acc_withTables (cs : list Client) rs ws (w : World) :
  (∀ a p c, rs !! a = Some (p, c) → c ∈ cs) →
  (∀ a p c, ws !! a = Some (p, c) → c ∈ cs) →
  Acc cs w → Acc cs (withTables rs ws w).
Proof. intros Hrs Hws [A1 A2 A3 A4 A5 A6 A7 A8]. by split. Qed.

Lemma Acc_removeClient (cs : list Client) (c0 : Client) (w : World) :
  c0 ∈ cs → Acc cs w → Acc cs (removeClient c0 w).2.
Proof.
  intros Hin0 HA. destruct (clients (manager w) !! addr c0) as [b|] eqn:E;
    [|by rewrite (removeClient_absent _ _ E)].
  pose proof (accounted_removeClient c0 w (acc_count _ _ HA)) as Hcount.
  rewrite (removeClient_present _ _ _ E) in *.
  destruct HA as [A1 A2 A3 A4 A5 A6 A7 A8].
  split; cbn [snd manager clients next readers writers trace]; try done.
  - intros conn Hconn. rewrite closes_app, (A7 _ Hconn). simpl.
    destruct (Pos.eqb_spec (connection c0) conn) as [<-|]; [|done].
    exfalso. apply Hconn. by apply (list_elem_of_fmap_2 connection).
  - intros Hnd c Hin. rewrite closes_app, (A8 Hnd _ Hin). simpl.
    destruct (decide (addr c = addr c0)) as [Heq|Ha].
    + apply (NoDup_fmap_inj_on addr cs) in Heq as ->; [|done..].
      rewrite Pos.eqb_refl, lookup_delete_eq.
      rewrite decide_True by by rewrite E. by rewrite decide_False by by intros [? ?].
    + assert (Hc : connection c0 ≠ connection c).
      { intros Hc. apply Ha. f_equal. by apply (NoDup_fmap_inj_on connection cs). }
      rewrite lookup_delete_ne by done.
      destruct (Pos.eqb_spec (connection c0) (connection c)); [done|].
      destruct (decide _); lia.
Qed.

Lemma Acc_admit (cs : list Client) (conn : Conn) (es : list effect) (w w' : World) :
  Inv w → Acc cs w →
  clients (manager w') = <[next w := true]> (clients (manager w)) →
  next w' = Pos.succ (next w) →
  readers w' = <[next w := (Spawned, mkClient (next w) conn)]> (readers w) →
  writers w' = <[next w := (Spawned, mkClient (next w) conn)]> (writers w) →
  trace w' = trace w ++ es → closeCount es = 0%nat →
  Acc (mkClient (next w) conn :: cs) w'.
Proof.
  intros HI [A1 A2 A3 A4 A5 A6 A7 A8] Hc Hn Hr Hw Ht Hq.
  assert (Hfresh : clients (manager w) !! next w = None).
  { destruct (clients (manager w) !! next w) as [b|] eqn:Eb; [|done].
    assert (Hs : is_Some (clients (manager w) !! next w)) by by rewrite Eb.
    apply (inv_clients _ HI) in Hs as [[[p c] Hrd] _].
    destruct (inv_readers _ HI _ _ _ Hrd). lia. }
  assert (Hold : ∀ c, c ∈ cs → addr c ≠ next w).
  { intros c Hin Ha. specialize (A3 _ Hin). lia. }
  split; rewrite ?Hc, ?Hn, ?Hr, ?Hw.
  - intros a p c. rewrite lookup_insert. case_decide.
    + intros [= <- <-]. apply list_elem_of_here.
    + intros H1. apply list_elem_of_further. by eapply A1.
  - intros a p c. rewrite lookup_insert. case_decide.
    + intros [= <- <-]. apply list_elem_of_here.
    + intros H1. apply list_elem_of_further. by eapply A2.
  - intros c Hin. apply elem_of_cons in Hin as [->|Hin]; simpl; [lia|].
    specialize (A3 _ Hin). lia.
  - simpl. apply NoDup_cons. split; [|done].
    intros Hin. apply list_elem_of_fmap in Hin as (c & Ha & Hin).
    by apply (Hold c).
  - simpl. rewrite A5. rewrite Pos2Nat.inj_succ. pose proof (Pos2Nat.is_pos (next w)).
    simpl. lia.
  - unfold accounted in *. rewrite Hc, Hn, Ht, closeCount_app, Hq.
    rewrite map_size_insert_None by done. rewrite Pos2Nat.inj_succ.
    pose proof (Pos2Nat.is_pos (next w)). simpl. lia.
  - intros conn' Hconn. simpl in Hconn. apply not_elem_of_cons in Hconn as [_ Hconn].
    rewrite Ht, closes_app, (A7 _ Hconn), closes_quiet; done.
  - simpl. intros Hnd c Hin. apply NoDup_cons in Hnd as [Hnew Hnd].
    rewrite Ht, closes_app, (closes_quiet _ es Hq).
    apply elem_of_cons in Hin as [->|Hin]; simpl.
    + rewrite (A7 _ Hnew), lookup_insert_eq. by rewrite decide_True by by eexists.
    + rewrite (A8 Hnd _ Hin), lookup_insert_ne by (apply not_eq_sym; by apply Hold).
      lia.
Qed.

Lemma admitted_none (w w' : World) : next w' = next w → admitted w w' = [].
Proof. intros H. unfold admitted. by rewrite decide_True. Qed.

Lemma admitted_one (w w' : World) (p : Phase) (c : Client) :
  next w' = Pos.succ (next w) → readers w' !! next w = Some (p, c) →
  admitted w w' = [c].
Proof.
  intros Hn Hr. unfold admitted. rewrite decide_False by (rewrite Hn; lia).
  by rewrite Hr.
Qed.

Lemma Acc_step (cs : list Client) (w w' : World) :
  step w w' → Inv w → Acc cs w → Acc (admitted w w' ++ cs) w'.
Proof.
  intros Hs HI HA. destruct Hs as [body key now data w|r now hs w|now w
    |a c now dl w Hr|a c rr w Hr|a c w Hw|a c sel we w Hw].
  - pose proof (quiet_loginHandler body key now data w) as Hq.
    rewrite admitted_none by apply Hq. by eapply Acc_quiet.
  - destruct (decide (Get (query r) "otp" = EmptyString)) as [E|E].
    { rewrite (serveWS_rejected r now hs w (or_introl E)). cbn [snd].
      rewrite admitted_none by done. eapply Acc_quiet; [|exact HA]. by apply (quiet_extend w [_; _]). }
    destruct (VerifyOTP otpRetention now (Get (query r) "otp") (otps (manager w)))
      as [[] os] eqn:Hv.
    + destruct (outcome hs) as [conn|err] eqn:Ho.
      * rewrite (serveWS_accepted _ _ _ _ _ _ E Hv Ho). cbn [snd].
        erewrite admitted_one; [|done|apply lookup_insert_eq]. cbn [app].
        by eapply (Acc_admit cs conn _ w).
      * rewrite (serveWS_upgrade_error _ _ _ _ _ _ E Hv Ho). cbn [snd].
        rewrite admitted_none by done. eapply Acc_quiet, HA.
        repeat split. by eexists.
    + assert (Hf : (VerifyOTP otpRetention now (Get (query r) "otp")
                      (otps (manager w))).1 = false) by by rewrite Hv.
      rewrite (serveWS_rejected r now hs w (or_intror Hf)). cbn [snd].
      rewrite admitted_none by done. eapply Acc_quiet; [|exact HA]. by apply (quiet_extend w [_; _]).
  - rewrite admitted_none by done. eapply Acc_quiet, HA.
    repeat split. exists []. by rewrite app_nil_r.
  - destruct (inv_readers _ HI _ _ _ Hr) as [<- _].
    pose proof (quiet_readPrologue c now dl w) as Hq.
    pose proof (Acc_quiet cs _ _ Hq HA) as HA1.
    rewrite readStart_eq.
    destruct (readPrologue c now dl w) as [[] w1]; cbn [fst snd] in *.
    + rewrite admitted_none by apply Hq. apply Acc_withTables; [|apply HA1|done].
      intros a p c'. rewrite lookup_insert. case_decide.
      * intros [= <- <-]. by eapply (acc_readers _ _ HA).
      * apply (acc_readers _ _ HA1).
    + rewrite readExit_eq.
      assert (Hin : c ∈ cs) by by eapply (acc_readers _ _ HA).
      pose proof (Acc_removeClient cs c w1 Hin HA1) as HA2.
      pose proof (removeClient_frame c w1) as (_&_&_&Hn&_).
      rewrite admitted_none by (cbn [withTables next]; rewrite Hn; apply Hq).
      apply Acc_withTables; [|apply HA1|done].
      intros a p c'. rewrite lookup_delete. case_decide; [done|]. apply (acc_readers _ _ HA1).
  - destruct (inv_readers _ HI _ _ _ Hr) as [<- _].
    pose proof (quiet_readIteration c rr w (inv_handlers _ HI)) as Hq.
    pose proof (Acc_quiet cs _ _ Hq HA) as HA1.
    rewrite readStep_eq.
    destruct (readIteration c rr w) as [[] w1]; cbn [fst snd] in *.
    + rewrite admitted_none by apply Hq. done.
    + rewrite readExit_eq.
      assert (Hin : c ∈ cs) by by eapply (acc_readers _ _ HA).
      pose proof (Acc_removeClient cs c w1 Hin HA1) as HA2.
      pose proof (removeClient_frame c w1) as (_&_&_&Hn&_).
      rewrite admitted_none by (cbn [withTables next]; rewrite Hn; apply Hq).
      apply Acc_withTables; [|apply HA1|done].
      intros a p c'. rewrite lookup_delete. case_decide; [done|]. apply (acc_readers _ _ HA1).
  - destruct (inv_writers _ HI _ _ _ Hw) as [<- _].
    rewrite admitted_none by done.
    change (writeStart c w).2 with
      (withTables (readers w) (<[addr c := (Looping, c)]> (writers w))
         (extend w [ENewTicker pingInterval])).
    apply Acc_withTables;
      [apply HA| |eapply Acc_quiet; [by apply (quiet_extend w [_])|exact HA]].
    intros a p c'. rewrite lookup_insert. case_decide.
    + intros [= <- <-]. by eapply (acc_writers _ _ HA).
    + apply (acc_writers _ _ HA).
  - destruct (inv_writers _ HI _ _ _ Hw) as [<- _].
    pose proof (quiet_writeIteration c sel we w) as Hq.
    pose proof (Acc_quiet cs _ _ Hq HA) as HA1.
    rewrite writeStep_eq.
    destruct (writeIteration c sel we w) as [[] w1]; cbn [fst snd] in *.
    + rewrite admitted_none by apply Hq. done.
    + rewrite writeExit_eq.
      assert (Hin : c ∈ cs) by by eapply (acc_writers _ _ HA).
      pose proof (Acc_quiet cs _ _ (quiet_extend w1 [ETickerStop] eq_refl) HA1) as HA2.
      pose proof (Acc_removeClient cs c _ Hin HA2) as HA3.
      pose proof (removeClient_frame c (extend w1 [ETickerStop])) as (_&_&_&Hn&_).
      rewrite admitted_none by (cbn [withTables next]; rewrite Hn; apply Hq).
      apply Acc_withTables; [apply HA1| |done].
      intros a p c'. rewrite lookup_delete. case_decide; [done|]. apply (acc_writers _ _ HA1).
Qed.

Lemma run_Acc (cs : list Client) (w : World) : run cs w → reachable w ∧ Acc cs w.
Proof.
  induction 1 as [|cs w w' Hrun [Hw HA] Hs].
  - split; [apply rtc_refl|]. split; try done.
    + by intros c H%elem_of_nil.
    + apply NoDup_nil_2.
    + by intros _ c H%elem_of_nil.
  - split; [by eapply rtc_r|].
    apply Acc_step; [done|by apply reachable_Inv|done].
Qed.

(** X12: no connection is lost and none is closed twice.  Along every run
    of the server, with [cs] the clients admitted so far: the connections
    closed and the clients registered add up to the clients admitted, and
    no connection but those of admitted clients is ever closed.  When the
    handshakes have handed out distinct connections, as Upgrade does, each
    admitted client is accounted for by itself: as long as it is registered
    its connection has not been closed, and once it is no longer registered
    its connection has been closed exactly once. *)
Theorem connections_accounted (cs : list Client) (w : World) :
  run cs w →
  reachable w ∧
  length cs = pred (Pos.to_nat (next w)) ∧
  (closeCount (trace w) + size (clients (manager w)))%nat = length cs ∧
  (∀ conn, conn ∉ map connection cs → closes conn (trace w) = 0%nat) ∧
  (NoDup (map connection cs) →
   ∀ c, c ∈ cs →
     closes (connection c) (trace w) =
       if decide (is_Some (clients (manager w) !! addr c)) then 0%nat else 1%nat).
Proof.
  intros Hrun. destruct (run_Acc cs w Hrun) as [Hw [A1 A2 A3 A4 A5 A6 A7 A8]].
  split; [done|]. split; [done|]. split; [by rewrite A5|]. split; done.
Qed.

(** X13: what /debug reports.  The handler writes the number of
    registered clients in decimal and changes nothing; in every reachable
    state that number is the number of connections both of whose loops are
    still there. *)
Theorem debugHandler_counts_active (w : World) :
  reachable w →
  debugHandler w =
    (tt, extend w [EWrite (decimal (size (dom (readers w) ∩ dom (writers w))))]) ∧
  size (clients (manager w)) = size (dom (readers w) ∩ dom (writers w)).
Proof.
  intros Hw. pose proof (reachable_Inv w Hw) as HI.
  assert (Hd : dom (clients (manager w)) = dom (readers w) ∩ dom (writers w)).
  { apply set_eq. intros a. rewrite elem_of_intersection, !elem_of_dom.
    apply (inv_clients _ HI). }
  assert (Hs : size (clients (manager w)) = size (dom (readers w) ∩ dom (writers w))).
  { by rewrite <- Hd, size_dom. }
  split; [|done]. unfold debugHandler. run. by rewrite Hs.
Qed.

(** ** The snapshot without tokens *)

(** X14: in the snapshot without tokens the origin decides.  checkOrigin
    accepts a request if and only if its Origin header is
    http://localhost:8080.  For a request of another origin serveWS
    registers nobody, whatever the handshake would give: the upgrade fails,
    with the error of the checks made before the origin is looked at when
    one of them fails and with origin-not-allowed otherwise, and the error
    is logged.  For a request of that origin whose handshake succeeds it
    registers a new client and starts its loops, with no token asked. *)
Theorem Untokened_origin_decides (r : Request) (handshake : Handshake) (w : World) :
  (Untokened.checkOrigin r = true ↔ Get (header r) "Origin" = "http://localhost:8080") ∧
  (Get (header r) "Origin" ≠ "http://localhost:8080" →
   Untokened.serveWS r handshake w =
     (tt, extend w [ELog "New connections" None; EUpgrade r;
                    ELog EmptyString
                      (Some (match early handshake with
                             | Some err => err
                             | None => ErrOriginNotAllowed
                             end))])) ∧
  (Get (header r) "Origin" = "http://localhost:8080" →
   ∀ conn, outcome handshake = inl conn →
     let w' := (Untokened.serveWS r handshake w).2 in
     clients (manager w') = <[next w := true]> (clients (manager w)) ∧
     readers w' = <[next w := (Spawned, mkClient (next w) conn)]> (readers w) ∧
     writers w' = <[next w := (Spawned, mkClient (next w) conn)]> (writers w) ∧
     otps (manager w') = otps (manager w)).
Proof.
  assert (Hc : Untokened.checkOrigin r = true ↔
               Get (header r) "Origin" = "http://localhost:8080").
  { unfold Untokened.checkOrigin.
    destruct (String.eqb_spec (Get (header r) "Origin") "http://localhost:8080");
      split; congruence. }
  split; [exact Hc|]. split.
  - intros Hne. unfold Untokened.serveWS, Upgrade. run.
    change (CheckOrigin Untokened.websocketUpgrader r) with (Untokened.checkOrigin r).
    assert (E : Untokened.checkOrigin r = false)
      by (apply not_true_is_false; intros E; by apply Hne, Hc).
    rewrite E. destruct (early handshake); run; unfold extend;
      by rewrite <- !app_assoc.
  - intros He conn Ho. unfold Untokened.serveWS, Upgrade, NewClient, addClient. run.
    change (CheckOrigin Untokened.websocketUpgrader r) with (Untokened.checkOrigin r).
    rewrite (proj2 Hc He). fold (outcome handshake). rewrite Ho. by run.
Qed.

(** ** Who writes to a connection, and who closes one *)

Lemma serveWS_cases (r : Request) (now : Z) (handshake : Handshake) (w : World) :
  let w' := (serveWS r now handshake w).2 in
  (∃ es, trace w' = trace w ++ es ∧ closeCount es = 0%nat ∧ ∀ conn, sent conn es = []) ∧
  (frame w w' ∨
   ∃ conn, outcome handshake = inl conn ∧
     clients (manager w') = <[next w := true]> (clients (manager w))).
Proof.
  destruct (decide (Get (query r) "otp" = EmptyString)) as [E|E].
  { rewrite (serveWS_rejected r now handshake w (or_introl E)). cbn [snd trace].
    split; [by eexists|left; by repeat split]. }
  destruct (VerifyOTP otpRetention now (Get (query r) "otp") (otps (manager w))) as [[] os] eqn:Hv.
  - destruct (outcome handshake) as [conn|err] eqn:Ho.
    + rewrite (serveWS_accepted _ _ _ _ _ _ E Hv Ho). cbn [snd trace manager clients].
      split; [by eexists|right; by eexists].
    + rewrite (serveWS_upgrade_error _ _ _ _ _ _ E Hv Ho). cbn [snd trace].
      split; [by eexists|left; by repeat split].
  - assert (Hf : (VerifyOTP otpRetention now (Get (query r) "otp") (otps (manager w))).1 = false)
      by by rewrite Hv.
    rewrite (serveWS_rejected r now handshake w (or_intror Hf)). cbn [snd trace].
    split; [by eexists|left; by repeat split].
Qed.

(** X15: an admission never costs anybody their connection.  In every
    reachable state, whatever the request and the handshake, serveWS closes
    no connection, keeps every registered client registered, and adds at
    most one client. *)
Theorem serveWS_disconnects_nobody (r : Request) (now : Z) (handshake : Handshake) (w : World) :
  reachable w →
  let w' := (serveWS r now handshake w).2 in
  closeCount (trace w') = closeCount (trace w) ∧
  clients (manager w) ⊆ clients (manager w') ∧
  (size (clients (manager w)) ≤ size (clients (manager w')) ≤
     S (size (clients (manager w))))%nat.
Proof.
  intros Hw w'. pose proof (reachable_Inv w Hw) as HI.
  destruct (serveWS_cases r now handshake w) as [(es & Ht & Hc & _) Hcases].
  fold w' in Ht, Hcases. split; [rewrite Ht, closeCount_app; lia|].
  destruct Hcases as [(Hcl&_)|(conn & _ & Hcl)]; rewrite Hcl; [split; [done|lia]|].
  assert (Hfresh : clients (manager w) !! next w = None).
  { destruct (clients (manager w) !! next w) as [b|] eqn:Eb; [|done].
    assert (Hs : is_Some (clients (manager w) !! next w)) by by rewrite Eb.
    apply (inv_clients _ HI) in Hs as [[[p c] Hr] _].
    destruct (inv_readers _ HI _ _ _ Hr). lia. }
  split; [by apply insert_subseteq|]. rewrite map_size_insert_None by done. lia.
Qed.

Lemma sent_removeClient (conn : Conn) (c : Client) (w : World) :
  sent conn (trace (removeClient c w).2) = sent conn (trace w).
Proof.
  destruct (clients (manager w) !! addr c) as [b|] eqn:E.
  - rewrite (removeClient_present _ _ _ E). cbn [snd trace].
    rewrite sent_app. simpl. by rewrite app_nil_r.
  - by rewrite (removeClient_absent _ _ E).
Qed.

Lemma sent_readPrologue (conn : Conn) (c : Client) now dl (w : World) :
  sent conn (trace (readPrologue c now dl w).2) = sent conn (trace w).
Proof.
  unfold readPrologue. destruct dl; run; rewrite !sent_app; simpl;
    by rewrite !app_nil_r.
Qed.

Lemma sent_readIteration (conn : Conn) (c : Client) rr (w : World) :
  handlers (manager w) = handlers NewManager →
  sent conn (trace (readIteration c rr w).2) = sent conn (trace w).
Proof.
  intros Hh. destruct rr as [payload|err].
  - destruct (unmarshalEvent payload) as [request|err] eqn:E.
    + rewrite (readIteration_decoded _ _ _ _ E). cbn [snd].
      pose proof (handlers_NewManager (Type_ request)) as Hl. rewrite <- Hh in Hl.
      case_decide.
      * rewrite (reouteEvent_handler _ _ _ _ Hl). simpl.
        rewrite sent_app. simpl. by rewrite app_nil_r.
      * rewrite (reouteEvent_no_handler _ _ _ Hl). simpl.
        rewrite sent_app. simpl. by rewrite app_nil_r.
    + rewrite (readIteration_decode_error _ _ _ _ E). simpl.
      rewrite sent_app. simpl. by rewrite app_nil_r.
  - unfold readIteration. run. destruct (IsUnexpectedCloseError _ _); simpl;
      rewrite ?sent_app; simpl; by rewrite ?app_nil_r.
Qed.

Lemma sent_writeIteration_other (conn : Conn) (c : Client) sel we (w : World) :
  conn ≠ connection c →
  sent conn (trace (writeIteration c sel we w).2) = sent conn (trace w).
Proof.
  intros Hne. assert (Hb : Pos.eqb (connection c) conn = false)
    by (apply Pos.eqb_neq; congruence).
  unfold writeIteration. destruct sel as [message| |];
    [destruct (marshalEvent message)|..]; destruct we; run;
    rewrite ?sent_app; simpl; rewrite ?Hb; by rewrite ?app_nil_r.
Qed.

(** X16: only the write loop of a client writes to its connection.  In
    every reachable state, a login, an admission, and the start, a round or
    the end of any read loop hand no frame to any connection; and a round of
    the write loop of a client, its end included, hands no frame to the
    connection of anybody else. *)
Theorem only_the_write_loop_writes (conn : Conn) (w : World) :
  reachable w →
  (∀ body key now data,
     sent conn (trace (loginHandler body key now data w).2) = sent conn (trace w)) ∧
  (∀ r now handshake,
     sent conn (trace (serveWS r now handshake w).2) = sent conn (trace w)) ∧
  (∀ c now dl,
     sent conn (trace (readStart c now dl w).2) = sent conn (trace w)) ∧
  (∀ c rr,
     sent conn (trace (readStep c rr w).2) = sent conn (trace w)) ∧
  (∀ c sel we, conn ≠ connection c →
     sent conn (trace (writeStep c sel we w).2) = sent conn (trace w)).
Proof.
  intros Hw. pose proof (reachable_Inv w Hw) as HI.
  split; [|split; [|split; [|split]]].
  - intros body key now data.
    destruct (decide (body = inl ("arti", "123"))) as [->|Hb].
    + rewrite loginHandler_issued. cbn [snd trace]. rewrite sent_app.
      destruct data; simpl; by rewrite app_nil_r.
    + rewrite (loginHandler_rejects _ _ _ _ _ Hb). cbn [snd extend trace].
      rewrite sent_app. destruct body; simpl; by rewrite app_nil_r.
  - intros r now handshake.
    destruct (serveWS_cases r now handshake w) as [(es & Ht & _ & Hs) _].
    cbv zeta in Ht. by rewrite Ht, sent_app, Hs, app_nil_r.
  - intros c now dl. rewrite readStart_eq.
    pose proof (sent_readPrologue conn c now dl w) as Hq.
    destruct (readPrologue c now dl w) as [[] w1]; cbn [fst snd] in *; [done|].
    rewrite readExit_eq. cbn [withTables trace]. by rewrite sent_removeClient.
  - intros c rr. rewrite readStep_eq.
    pose proof (sent_readIteration conn c rr w (inv_handlers _ HI)) as Hq.
    destruct (readIteration c rr w) as [[] w1]; cbn [fst snd] in *; [done|].
    rewrite readExit_eq. cbn [withTables trace]. by rewrite sent_removeClient.
  - intros c sel we Hne. rewrite writeStep_eq.
    pose proof (sent_writeIteration_other conn c sel we w Hne) as Hq.
    destruct (writeIteration c sel we w) as [[] w1]; cbn [fst snd] in *; [done|].
    rewrite writeExit_eq. cbn [withTables trace]. rewrite sent_removeClient.
    cbn [extend trace]. rewrite sent_app. simpl. by rewrite app_nil_r.
Qed.

(** ** What the read loop hands to the handler *)

Lemma printedEvents_app (t1 t2 : list effect) :
  printedEvents (t1 ++ t2) = printedEvents t1 ++ printedEvents t2.
Proof.
  induction t1 as [|e t1 IH]; [done|].
  destruct e as [| | | | | | | | |[s|ev]| | | |]; simpl; by rewrite ?IH.
Qed.

Lemma printedEvents_readIteration (c : Client) rr (w : World) :
  handlers (manager w) = handlers NewManager →
  printedEvents (trace (readIteration c rr w).2) = printedEvents (trace w) ++ chatOf rr.
Proof.
  intros Hh. unfold chatOf. destruct rr as [payload|err].
  - destruct (unmarshalEvent payload) as [request|err] eqn:E.
    + rewrite (readIteration_decoded _ _ _ _ E). cbn [snd].
      pose proof (handlers_NewManager (Type_ request)) as Hl. rewrite <- Hh in Hl.
      case_decide.
      * rewrite (reouteEvent_handler _ _ _ _ Hl). unfold sendMessageHandler.
        cbn [fst snd extend trace]. by rewrite printedEvents_app.
      * rewrite (reouteEvent_no_handler _ _ _ Hl). cbn [extend trace].
        rewrite printedEvents_app. simpl. by rewrite app_nil_r.
    + rewrite (readIteration_decode_error _ _ _ _ E). cbn [snd extend trace].
      rewrite printedEvents_app. simpl. by rewrite app_nil_r.
  - unfold readIteration. run. destruct (IsUnexpectedCloseError _ _); simpl;
      rewrite ?printedEvents_app; simpl; by rewrite ?app_nil_r.
Qed.

(** X17: the read loop handles the messages of a connection in the order
    they arrive.  In every reachable state, the Events the send_message
    handler receives (and prints) during a run of the loop are the
    send_message envelopes of the input, in order, as they were decoded, up
    to the first fatal round; envelopes of other types are passed over, and
    nothing after the fatal round is handled. *)
Theorem readLoop_handles_in_order (c : Client) (script : list (list byte + error)) (w : World) :
  reachable w →
  printedEvents (trace (readLoop c script w).2) =
    printedEvents (trace w) ++ concat (map chatOf (upto fatal script)).
Proof.
  intros Hw. pose proof (inv_handlers _ (reachable_Inv w Hw)) as Hh. clear Hw.
  revert w Hh. induction script as [|rr rest IH]; intros w Hh.
  { simpl. by rewrite app_nil_r. }
  rewrite readLoop_cons, readIteration_control.
  pose proof (printedEvents_readIteration c rr w Hh) as Hp.
  pose proof (frame_readIteration c rr w) as (_&Hh1&_).
  cbn [upto]. destruct (fatal rr); cbn [fst snd map concat].
  - by rewrite Hp, app_nil_r.
  - rewrite IH by by rewrite Hh1. by rewrite Hp, <- app_assoc.
Qed.

(** ** The lifecycle of a connection *)

Lemma readLoop_returns (c : Client) (script : list (list byte + error)) :
  ∀ w, (readLoop c script w).1 = if existsb fatal script then Returned else Blocked.
Proof.
  induction script as [|rr rest IH]; intros w; [done|].
  rewrite readLoop_cons, readIteration_control. simpl.
  destruct (fatal rr); [done|]. apply IH.
Qed.

Lemma readMessages_outcome (c : Client) now dl script (w : World) :
  (readMessages c now dl script w).1 =
    if isErr dl || existsb fatal script then Returned else Blocked.
Proof.
  rewrite readMessages_eq. unfold readPrologue. destruct dl as [err|]; run; [done|].
  rewrite readLoop_returns. by destruct (existsb fatal script).
Qed.

Lemma readMessages_blocked (c : Client) now dl script (w : World) :
  (readMessages c now dl script w).1 = Blocked → frame w (readMessages c now dl script w).2.
Proof.
  rewrite readMessages_eq.
  pose proof (frame_readPrologue c now dl w) as Hp.
  destruct (readPrologue c now dl w) as [[] w1]; cbn [fst snd] in *; [|done].
  pose proof (frame_readLoop c script w1) as Hl.
  destruct (readLoop c script w1) as [[] w2]; cbn [fst snd] in *; [done|].
  intros _. by eapply frame_trans.
Qed.

Lemma WriteMessages_outcome (c : Client) script (w : World) :
  (WriteMessages c script w).1 = if existsb ending script then Returned else Blocked.
Proof.
  rewrite WriteMessages_eq. cbv zeta.
  destruct (writeLoop_effects c script (extend w [ENewTicker pingInterval]))
    as (es & E & _).
  rewrite E. cbn [fst]. by destruct (existsb ending script).
Qed.

Lemma WriteMessages_blocked (c : Client) script (w : World) :
  (WriteMessages c script w).1 = Blocked → frame w (WriteMessages c script w).2.
Proof.
  rewrite WriteMessages_eq. cbv zeta.
  destruct (writeLoop_effects c script (extend w [ENewTicker pingInterval]))
    as (es & E & _).
  rewrite E. cbn [fst snd]. destruct (existsb ending script); [done|].
  intros _. cbn [snd]. by repeat split.
Qed.

(** C6: registry membership tracks the lifecycle of a connection.  In
    every reachable state of the server, a client is in the registry if and
    only if it is active: it was admitted and neither of its two loops has
    returned.  readMessages and WriteMessages return exactly when their loop
    meets a round that ends it (for readMessages also when the read deadline
    cannot be set), every such return goes through the deferred
    removeClient, which leaves the client out of the registry, and while
    they stay in their loop they leave the registry alone.  A run of either
    function for a client whose goroutine was started is a path of the
    server: the state it ends in is reachable, and once the function has
    returned the client is there neither registered nor active.  The same
    holds round by round. *)
Theorem registry_tracks_lifecycle (w : World) :
  reachable w →
  (∀ a, is_Some (clients (manager w) !! a) ↔ active w a) ∧
  (∀ a, readers w !! a = None ∨ writers w !! a = None →
        clients (manager w) !! a = None) ∧
  (∀ c now dl script w0,
     readMessages c now dl script w0 =
       match (readPrologue c now dl w0).1 with
       | Break => (Returned, (removeClient c (readPrologue c now dl w0).2).2)
       | Continue =>
           match (readLoop c script (readPrologue c now dl w0).2).1 with
           | Returned =>
               (Returned,
                (removeClient c (readLoop c script (readPrologue c now dl w0).2).2).2)
           | Blocked => (Blocked, (readLoop c script (readPrologue c now dl w0).2).2)
           end
       end ∧
     (readMessages c now dl script w0).1 =
       (if isErr dl || existsb fatal script then Returned else Blocked) ∧
     ((readMessages c now dl script w0).1 = Returned →
      clients (manager (readMessages c now dl script w0).2) !! addr c = None) ∧
     ((readMessages c now dl script w0).1 = Blocked →
      frame w0 (readMessages c now dl script w0).2)) ∧
  (∀ c script w0,
     WriteMessages c script w0 =
       (let w1 := extend w0 [ENewTicker pingInterval] in
        match (writeLoop c script w1).1 with
        | Returned =>
            (Returned,
             (removeClient c (extend (writeLoop c script w1).2 [ETickerStop])).2)
        | Blocked => (Blocked, (writeLoop c script w1).2)
        end) ∧
     (WriteMessages c script w0).1 =
       (if existsb ending script then Returned else Blocked) ∧
     ((WriteMessages c script w0).1 = Returned →
      clients (manager (WriteMessages c script w0).2) !! addr c = None) ∧
     ((WriteMessages c script w0).1 = Blocked →
      frame w0 (WriteMessages c script w0).2)) ∧
  (∀ c now dl script,
     readers w !! addr c = Some (Spawned, c) →
     let r := readMessages c now dl script w in
     let w' := withTables
                 (match r.1 with
                  | Returned => delete (addr c) (readers w)
                  | Blocked => <[addr c := (Looping, c)]> (readers w)
                  end) (writers w) r.2 in
     reachable w' ∧
     (r.1 = Returned →
      clients (manager w') !! addr c = None ∧ ¬ active w' (addr c))) ∧
  (∀ c script,
     writers w !! addr c = Some (Spawned, c) →
     let r := WriteMessages c script w in
     let w' := withTables (readers w)
                 (match r.1 with
                  | Returned => delete (addr c) (writers w)
                  | Blocked => <[addr c := (Looping, c)]> (writers w)
                  end) r.2 in
     reachable w' ∧
     (r.1 = Returned →
      clients (manager w') !! addr c = None ∧ ¬ active w' (addr c))) ∧
  (∀ a c now err,
     readers w !! a = Some (Spawned, c) →
     let w' := (readStart c now (Some err) w).2 in
     reachable w' ∧ readers w' !! a = None ∧ clients (manager w') !! a = None) ∧
  (∀ a c rr,
     readers w !! a = Some (Looping, c) →
     (readIteration c rr w).1 = Break →
     let w' := (readStep c rr w).2 in
     reachable w' ∧ readers w' !! a = None ∧ clients (manager w') !! a = None) ∧
  (∀ a c sel we,
     writers w !! a = Some (Looping, c) →
     (writeIteration c sel we w).1 = Break →
     let w' := (writeStep c sel we w).2 in
     reachable w' ∧ writers w' !! a = None ∧ clients (manager w') !! a = None).
Proof.
  intros Hw. pose proof (reachable_Inv w Hw) as HI.
  split; [|split; [|split; [|split; [|split; [|split; [|split; [|split]]]]]]].
  - intros a. unfold active. rewrite (inv_clients _ HI). split; [|tauto].
    intros [[[p c] Hr] Hwr]. split; [|by eauto].
    by destruct (inv_readers _ HI _ _ _ Hr).
  - intros a H. destruct (clients (manager w) !! a) as [b|] eqn:E; [|done].
    assert (Hs : is_Some (clients (manager w) !! a)) by by rewrite E.
    apply (inv_clients _ HI) in Hs as [[? Hr] [? Hwr]].
    destruct H; congruence.
  - intros c now dl script w0.
    split; [apply readMessages_eq|]. split; [apply readMessages_outcome|].
    split; [|apply readMessages_blocked].
    intros Hr. destruct (readMessages c now dl script w0) as [r w1] eqn:E.
    cbn [fst snd] in *. subst r. by eapply readMessages_returned.
  - intros c script w0.
    split; [apply WriteMessages_eq|]. split; [apply WriteMessages_outcome|].
    split; [|apply WriteMessages_blocked].
    intros Hr. destruct (WriteMessages c script w0) as [r w1] eqn:E.
    cbn [fst snd] in *. subst r. by eapply WriteMessages_returned.
  - intros c now dl script Hr r w'. split.
    + unfold reachable. etrans; [exact Hw|].
      pose proof (readMessages_steps c now dl script (readers w) (writers w) w Hr) as Hp.
      by rewrite withTables_id in Hp.
    + intros Hret. subst w'. rewrite Hret. cbn [withTables manager].
      assert (Hg : clients (manager r.2) !! addr c = None).
      { subst r. destruct (readMessages c now dl script w) as [o w1] eqn:E.
        cbn [fst snd] in *. subst o. by eapply readMessages_returned. }
      split; [done|]. unfold active, withTables. cbn [readers].
      rewrite lookup_delete_eq. intros (_ & [? ?] & _). done.
  - intros c script Hwr r w'. split.
    + unfold reachable. etrans; [exact Hw|].
      pose proof (WriteMessages_steps c script (readers w) (writers w) w Hwr) as Hp.
      by rewrite withTables_id in Hp.
    + intros Hret. subst w'. rewrite Hret. cbn [withTables manager].
      assert (Hg : clients (manager r.2) !! addr c = None).
      { subst r. destruct (WriteMessages c script w) as [o w1] eqn:E.
        cbn [fst snd] in *. subst o. by eapply WriteMessages_returned. }
      split; [done|]. unfold active, withTables. cbn [writers].
      rewrite lookup_delete_eq. intros (_ & _ & [? ?]). done.
  - intros a c now err Hr w'.
    destruct (inv_readers _ HI _ _ _ Hr) as [<- _].
    split; [|apply readStart_break].
    eapply rtc_r; [exact Hw|]. by eapply step_read_start.
  - intros a c rr Hr Hb w'.
    destruct (inv_readers _ HI _ _ _ Hr) as [<- _].
    split; [|by apply readStep_break].
    eapply rtc_r; [exact Hw|]. by eapply step_read.
  - intros a c sel we Hwr Hb w'.
    destruct (inv_writers _ HI _ _ _ Hwr) as [<- _].
    split; [|by apply writeStep_break].
    eapply rtc_r; [exact Hw|]. by eapply step_write.
Qed.

End Loops.

(** * Examples: the theorems at work on sample data *)

Lemma connectedWorld_reachable : reachable sampleUnmarshal sampleMarshal connectedWorld.
Proof.
  unfold reachable, connectedWorld, loggedInWorld.
  eapply rtc_l; [apply step_login|]. eapply rtc_l; [apply step_serveWS|]. apply rtc_refl.
Defined.

Lemma removeClient_twice_witness :
  is_Some (clients (manager connectedWorld) !! addr sampleClient) ∧
  closes 7 (trace (removeClient sampleClient (removeClient sampleClient connectedWorld).2).2) = 1%nat.
Proof.
  assert (H : is_Some (clients (manager connectedWorld) !! addr sampleClient)).
  { vm_compute. by eexists. }
  split; [exact H|].
  destruct (removeClient_twice sampleClient connectedWorld) as (_ & _ & Hc & _).
  destruct (Hc H) as (_ & _ & _ & Hcl).
  etrans; [exact Hcl|]. vm_compute. reflexivity.
Defined.

(** C2 as stated fails: a token that was issued and has been neither
    verified nor swept does not verify once its retention window has
    elapsed.  The token issued at time 0 is still in the store, no sweep
    having run, and its verification 21 seconds later returns false. *)
Lemma unswept_token_expires :
  runOps otpRetention [OpIssue "tok" 0] !! "tok" = Some (mkOTP "tok" 0) ∧
  (VerifyOTP otpRetention (21 * Time.Second) "tok"
     (runOps otpRetention [OpIssue "tok" 0])).1 = false.
Proof. split; vm_compute; reflexivity. Qed.

Lemma tokens_single_use_witness :
  let rm := runOps otpRetention
              [OpIssue "old" 0; OpIssue "tok" 5; OpVerify "old" 6; OpSweep 7] in
  VerifyOTP otpRetention 9 "tok" rm = (true, delete "tok" rm) ∧
  VerifyOTP otpRetention (21 * Time.Second) "tok" rm = (false, rm) ∧
  VerifyOTP otpRetention 9 "never" (runOps otpRetention [OpIssue "tok" 5]) =
    (false, runOps otpRetention [OpIssue "tok" 5]).
Proof.
  assert (Hs : Forall (spares otpRetention "tok" 5) [OpVerify "old" 6; OpSweep 7]).
  { repeat constructor; simpl; [done|vm_compute; discriminate]. }
  split; [|split].
  - apply (proj1 (tokens_single_use otpRetention "tok")
             [OpIssue "old" 0] [OpVerify "old" 6; OpSweep 7] 5 9 Hs).
    vm_compute. discriminate.
  - apply (proj1 (proj2 (tokens_single_use otpRetention "tok"))
             [OpIssue "old" 0] [OpVerify "old" 6; OpSweep 7] 5 (21 * Time.Second) Hs).
    vm_compute. reflexivity.
  - apply (proj1 (proj2 (proj2 (tokens_single_use otpRetention "never")))
             [OpIssue "tok" 5] 9).
    repeat constructor. simpl. done.
Defined.

Lemma serveWS_unauthorized_witness :
  (VerifyOTP otpRetention 9 (Get (query (sampleRequest "stale-key")) "otp")
     (otps (manager connectedWorld))).1 = false ∧
  clients (manager (serveWS (sampleRequest "stale-key") 9 (connects 8) connectedWorld).2)
    = clients (manager connectedWorld).
Proof.
  assert (H : (VerifyOTP otpRetention 9 (Get (query (sampleRequest "stale-key")) "otp")
                 (otps (manager connectedWorld))).1 = false) by (vm_compute; reflexivity).
  split; [exact H|].
  apply (serveWS_unauthorized (sampleRequest "stale-key") 9 (connects 8)
           connectedWorld (or_intror H)).
Defined.

Lemma reouteEvent_dispatch_witness :
  handlers (manager connectedWorld) !! "unknown" = None ∧
  reouteEvent (mkEvent "unknown" []) sampleClient connectedWorld =
    (Some ErrEventNotSupported, connectedWorld).
Proof.
  assert (H : handlers (manager connectedWorld) !! "unknown" = None)
    by (vm_compute; reflexivity).
  split; [exact H|].
  apply (proj1 (reouteEvent_dispatch sampleUnmarshal sampleMarshal
                  (mkEvent "unknown" []) sampleClient connectedWorld) H).
Defined.

Lemma readMessages_error_policy_witness :
  sampleUnmarshal msgGarbage = inr (ErrOther "invalid character") ∧
  readLoop sampleUnmarshal sampleClient [inl msgGarbage; inl msgChat] connectedWorld =
    (Returned,
     extend connectedWorld
       [ELog "error marshaling message: %v" (Some (ErrOther "invalid character"))]) ∧
  sampleUnmarshal msgUnknown = inl (mkEvent "unknown" []) ∧
  readLoop sampleUnmarshal sampleClient [inl msgUnknown; inl msgChat] connectedWorld =
    readLoop sampleUnmarshal sampleClient [inl msgChat]
      (extend connectedWorld [ELog "Error handling Message: " (Some ErrEventNotSupported)]).
Proof.
  assert (H1 : sampleUnmarshal msgGarbage = inr (ErrOther "invalid character"))
    by (vm_compute; reflexivity).
  assert (H2 : sampleUnmarshal msgUnknown = inl (mkEvent "unknown" []))
    by (vm_compute; reflexivity).
  split; [exact H1|]. split; [|split; [exact H2|]].
  - apply (proj1 (readMessages_error_policy sampleUnmarshal sampleClient msgGarbage
                    [inl msgChat] connectedWorld) _ H1).
  - apply (proj2 (readMessages_error_policy sampleUnmarshal sampleClient msgUnknown
                    [inl msgChat] connectedWorld) _ ErrEventNotSupported H2).
    vm_compute. reflexivity.
Defined.

Lemma WriteMessages_error_policy_witness :
  sampleMarshal (mkEvent EventSendMessage payloadMF) = inl msgChat ∧
  writeLoop sampleMarshal sampleClient
    [(RecvEgress (mkEvent EventSendMessage payloadMF), Some (ErrOther "broken pipe"));
     (Tick, None)] connectedWorld =
  writeLoop sampleMarshal sampleClient [(Tick, None)]
    (extend connectedWorld
       [EWriteMessage 7 TextMessage msgChat;
        ELog EmptyString (Some (ErrOther "broken pipe"));
        ELog "sent message" None]).
Proof.
  assert (H : sampleMarshal (mkEvent EventSendMessage payloadMF) = inl msgChat)
    by (vm_compute; reflexivity).
  split; [exact H|].
  apply (proj1 (WriteMessages_error_policy sampleMarshal sampleClient
                  (ErrOther "broken pipe") [(Tick, None)] connectedWorld) _ _ H).
Defined.

(** The first client is active in the sample server; its read loop meets
    bytes that are no JSON and returns; in the state the server is in then,
    the client is neither registered nor active. *)
Lemma registry_tracks_lifecycle_witness :
  reachable sampleUnmarshal sampleMarshal connectedWorld ∧
  readers connectedWorld !! addr sampleClient = Some (Spawned, sampleClient) ∧
  active connectedWorld 1 ∧
  let r := readMessages sampleUnmarshal sampleClient 6 None
             [inl msgChat; inl msgGarbage; inl msgChat] connectedWorld in
  let w' := withTables (delete 1%positive (readers connectedWorld))
              (writers connectedWorld) r.2 in
  r.1 = Returned ∧
  reachable sampleUnmarshal sampleMarshal w' ∧
  clients (manager w') !! 1%positive = None ∧
  ¬ active w' 1.
Proof.
  pose proof (registry_tracks_lifecycle sampleUnmarshal sampleMarshal connectedWorld
                connectedWorld_reachable) as (Hact & _ & _ & _ & Hrun & _).
  assert (Hr : readers connectedWorld !! addr sampleClient = Some (Spawned, sampleClient))
    by (vm_compute; reflexivity).
  assert (Hret : (readMessages sampleUnmarshal sampleClient 6 None
                    [inl msgChat; inl msgGarbage; inl msgChat] connectedWorld).1 = Returned)
    by (vm_compute; reflexivity).
  split; [exact connectedWorld_reachable|]. split; [exact Hr|].
  split; [apply Hact; vm_compute; by eexists|].
  intros r w'. split; [exact Hret|].
  destruct (Hrun sampleClient 6 None [inl msgChat; inl msgGarbage; inl msgChat] Hr)
    as [Hreach Hgone].
  rewrite Hret in Hreach, Hgone. split; [exact Hreach|]. exact (Hgone eq_refl).
Defined.

Lemma send_message_payload_stays_raw_witness :
  sampleUnmarshal msgChat = inl chatEvent ∧
  readIteration sampleUnmarshal sampleClient (inl msgChat) connectedWorld =
    (Continue, extend connectedWorld [EPrintln (PEvent chatEvent)]).
Proof.
  assert (H : sampleUnmarshal msgChat = inl chatEvent) by (vm_compute; reflexivity).
  split; [exact H|].
  apply (send_message_payload_stays_raw sampleUnmarshal sampleMarshal sampleClient
           msgChat chatEvent connectedWorld connectedWorld_reachable H eq_refl).
Defined.

(** C9 as stated fails.  The chat message decodes at the boundary into an
    Event of type send_message; the handler registered for that type is the
    one of setupEventHandlers; the claim has it decode the payload of the
    Event into a SendMessageEvent.  It does not: given the Event, all it
    does is print it, payload raw, and return nil. *)
Lemma registered_handler_does_not_decode :
  sampleUnmarshal msgChat = inl chatEvent ∧
  handlers (manager connectedWorld) !! Type_ chatEvent = Some sendMessageHandler ∧
  sendMessageHandler chatEvent sampleClient = ([EPrintln (PEvent chatEvent)], None) ∧
  ¬ decodesPayload sendMessageHandler chatEvent sampleClient.
Proof.
  split; [vm_compute; reflexivity|]. split; [vm_compute; reflexivity|].
  split; [reflexivity|].
  unfold decodesPayload. cbn [sendMessageHandler fst].
  intros H. by apply list_elem_of_singleton in H.
Qed.

(** The equivalence of C4 is about the handlers the Manager installs: a
    handler table with a handler that itself answers ErrEventNotSupported
    would show that error for a registered type.  No reachable state has
    one. *)
Remark reouteEvent_unsupported_from_a_handler :
  let m := mkManager ∅ {[ "echo" := (λ _ _, ([], Some ErrEventNotSupported)) ]} ∅ in
  let w := mkWorld m 1%positive ∅ ∅ [] in
  is_Some (handlers m !! "echo") ∧
  (reouteEvent (mkEvent "echo" []) sampleClient w).1 = Some ErrEventNotSupported.
Proof. split; [vm_compute; by eexists|reflexivity]. Qed.

(** * Examples for the further properties *)

Lemma addClient_removeClient_witness :
  clients (manager connectedWorld) !! addr (mkClient 5 9) = None ∧
  (removeClient (mkClient 5 9) (addClient (mkClient 5 9) connectedWorld).2).2 =
    extend connectedWorld [EClose 9].
Proof.
  assert (H : clients (manager connectedWorld) !! addr (mkClient 5 9) = None)
    by (vm_compute; reflexivity).
  split; [exact H|].
  apply (proj2 (proj2 (addClient_removeClient (mkClient 5 9) connectedWorld)) H).
Defined.

(** Removing the first of two registered clients leaves the second one
    registered and its connection alone. *)
Lemma removeClient_others_witness :
  is_Some (clients (manager crowdedWorld) !! addr sampleClient) ∧
  (2 ≠ addr sampleClient)%positive ∧ (8 ≠ connection sampleClient)%positive ∧
  clients (manager (removeClient sampleClient crowdedWorld).2) !! 2%positive =
    clients (manager crowdedWorld) !! 2%positive ∧
  closes 8 (trace (removeClient sampleClient crowdedWorld).2) =
    closes 8 (trace crowdedWorld).
Proof.
  assert (H : (2 ≠ addr sampleClient)%positive) by (simpl; lia).
  assert (H' : (8 ≠ connection sampleClient)%positive) by (simpl; lia).
  split; [vm_compute; by eexists|]. split; [exact H|]. split; [exact H'|]. split.
  - apply (proj1 (removeClient_others sampleClient crowdedWorld) 2%positive H).
  - apply (proj2 (removeClient_others sampleClient crowdedWorld) 8%positive H').
Defined.

Lemma loginHandler_rejects_witness :
  (inl ("arti", "wrong") : string * string + error) ≠ inl ("arti", "123") ∧
  loginHandler (inl ("arti", "wrong")) "tok" 0 (inl []) connectedWorld =
    (tt, extend connectedWorld [EWriteHeader StatusUnauthorized]).
Proof.
  assert (H : (inl ("arti", "wrong") : string * string + error) ≠ inl ("arti", "123"))
    by discriminate.
  split; [exact H|].
  apply (loginHandler_rejects (inl ("arti", "wrong")) "tok" 0 (inl []) connectedWorld H).
Defined.

Lemma login_then_serveWS_witness :
  reachable sampleUnmarshal sampleMarshal connectedWorld ∧
  size (clients (manager crowdedWorld)) = 2%nat ∧
  serveWS (sampleRequest "tok2") (8 + 21 * Time.Second) (connects 8)
    (loginHandler (inl ("arti", "123")) "tok2" 8 (inl []) connectedWorld).2 =
  (tt, extend (loginHandler (inl ("arti", "123")) "tok2" 8 (inl []) connectedWorld).2
         [EPrintln (PString "tok2"); EWriteHeader StatusUnauthorized]).
Proof.
  split; [exact connectedWorld_reachable|].
  assert (Hk : "tok2" ≠ EmptyString) by discriminate.
  assert (Hq : Get (query (sampleRequest "tok2")) "otp" = "tok2")
    by (vm_compute; reflexivity).
  split.
  - destruct (proj1 (login_then_serveWS sampleUnmarshal sampleMarshal "tok2" 8 9 (inl [])
                (sampleRequest "tok2") (connects 8) 8%positive connectedWorld
                connectedWorld_reachable Hk Hq eq_refl)) as (_ & _ & Hs & _).
    + vm_compute. discriminate.
    + etrans; [exact Hs|]. vm_compute. reflexivity.
  - apply (proj2 (login_then_serveWS sampleUnmarshal sampleMarshal "tok2" 8
                    (8 + 21 * Time.Second) (inl [])
                    (sampleRequest "tok2") (connects 8) 8%positive connectedWorld
                    connectedWorld_reachable Hk Hq eq_refl)).
    vm_compute. reflexivity.
Defined.

Lemma serveWS_failed_upgrade_uses_token_witness :
  otps (manager loggedInWorld) !! Get (query (sampleRequest "tok")) "otp" =
    Some (mkOTP "tok" 0) ∧
  otps (manager (serveWS (sampleRequest "tok") 5
                   (mkHandshake None (inr (ErrOther "bad handshake")))
                   loggedInWorld).2) =
    delete (Get (query (sampleRequest "tok")) "otp") (otps (manager loggedInWorld)).
Proof.
  assert (Hne : Get (query (sampleRequest "tok")) "otp" ≠ EmptyString)
    by (vm_compute; discriminate).
  assert (Hs : otps (manager loggedInWorld) !! Get (query (sampleRequest "tok")) "otp" =
               Some (mkOTP "tok" 0))
    by (vm_compute; reflexivity).
  split; [exact Hs|].
  apply (serveWS_failed_upgrade_uses_token (sampleRequest "tok") 5
           (mkHandshake None (inr (ErrOther "bad handshake")))
           (ErrOther "bad handshake") (mkOTP "tok" 0) loggedInWorld Hne Hs).
  - vm_compute. discriminate.
  - reflexivity.
Defined.

Lemma WriteMessages_ticker_witness :
  existsb (ending sampleMarshal) [(Tick, Some (ErrOther "broken pipe"))] = true ∧
  clients (manager (WriteMessages sampleMarshal sampleClient
                      [(Tick, Some (ErrOther "broken pipe"))] connectedWorld).2)
    !! addr sampleClient = None.
Proof.
  assert (H : existsb (ending sampleMarshal) [(Tick, Some (ErrOther "broken pipe"))] = true)
    by reflexivity.
  split; [exact H|].
  apply (WriteMessages_ticker sampleMarshal sampleClient
           [(Tick, Some (ErrOther "broken pipe"))] connectedWorld). exact H.
Defined.

Lemma handlers_never_change_witness :
  reachable sampleUnmarshal sampleMarshal connectedWorld ∧
  handlers (manager connectedWorld) = {[ EventSendMessage := sendMessageHandler ]}.
Proof.
  split; [exact connectedWorld_reachable|].
  apply (handlers_never_change sampleUnmarshal sampleMarshal connectedWorld
           connectedWorld_reachable).
Defined.

(** A run with two clients on the connections 7 and 8, the first of which
    has left. *)
Lemma thinnedWorld_run :
  run sampleUnmarshal sampleMarshal [mkClient 2 8; sampleClient] thinnedWorld.
Proof.
  pose proof (run_initial sampleUnmarshal sampleMarshal) as R0.
  pose proof (run_step _ _ _ _ _ R0
                (step_login _ _ (inl ("arti", "123")) "tok" 0 (inl []) _)) as R1.
  pose proof (run_step _ _ _ _ _ R1
                (step_serveWS _ _ (sampleRequest "tok") 5 (connects 7) _)) as R2.
  pose proof (run_step _ _ _ _ _ R2
                (step_login _ _ (inl ("arti", "123")) "tok2" 8 (inl []) _)) as R3.
  pose proof (run_step _ _ _ _ _ R3
                (step_serveWS _ _ (sampleRequest "tok2") 9 (connects 8) _)) as R4.
  assert (Hr : readers crowdedWorld !! 1%positive = Some (Spawned, sampleClient))
    by (vm_compute; reflexivity).
  pose proof (run_step _ _ _ _ _ R4
                (step_read_start _ _ 1%positive sampleClient 10
                   (Some (ErrOther "use of closed network connection")) _ Hr)) as R5.
  exact R5.
Defined.

Lemma connections_accounted_witness :
  run sampleUnmarshal sampleMarshal [mkClient 2 8; sampleClient] thinnedWorld ∧
  NoDup (map connection [mkClient 2 8; sampleClient]) ∧
  closes 7 (trace thinnedWorld) = 1%nat ∧
  clients (manager thinnedWorld) !! 1%positive = None ∧
  closes 8 (trace thinnedWorld) = 0%nat ∧
  is_Some (clients (manager thinnedWorld) !! 2%positive).
Proof.
  destruct (connections_accounted sampleUnmarshal sampleMarshal _ _ thinnedWorld_run)
    as (_ & _ & _ & _ & Hc).
  assert (Hnd : NoDup (map connection [mkClient 2 8; sampleClient])).
  { simpl. repeat constructor; intros H.
    - apply list_elem_of_singleton in H. discriminate.
    - by apply elem_of_nil in H. }
  split; [exact thinnedWorld_run|]. split; [exact Hnd|].
  split; [|split; [vm_compute; reflexivity|split; [|vm_compute; by eexists]]].
  - etrans; [apply (Hc Hnd sampleClient); apply list_elem_of_further, list_elem_of_here|].
    vm_compute. reflexivity.
  - etrans; [apply (Hc Hnd (mkClient 2 8)); apply list_elem_of_here|].
    vm_compute. reflexivity.
Defined.

Lemma debugHandler_counts_active_witness :
  reachable sampleUnmarshal sampleMarshal connectedWorld ∧
  size (clients (manager connectedWorld)) =
    size (dom (readers connectedWorld) ∩ dom (writers connectedWorld)).
Proof.
  split; [exact connectedWorld_reachable|].
  apply (debugHandler_counts_active sampleUnmarshal sampleMarshal connectedWorld
           connectedWorld_reachable).
Defined.

(** A request of a foreign origin: refused for its origin when the early
    checks pass, and with the error of the early checks when one fails. *)
Lemma Untokened_origin_decides_witness :
  Get (header (sampleRequest "tok")) "Origin" ≠ "http://localhost:8080" ∧
  Untokened.serveWS (sampleRequest "tok") (connects 8) connectedWorld =
    (tt, extend connectedWorld
           [ELog "New connections" None; EUpgrade (sampleRequest "tok");
            ELog EmptyString (Some ErrOriginNotAllowed)]) ∧
  Untokened.serveWS (sampleRequest "tok")
    (mkHandshake (Some (ErrOther "not a websocket handshake")) (inl 8%positive))
    connectedWorld =
    (tt, extend connectedWorld
           [ELog "New connections" None; EUpgrade (sampleRequest "tok");
            ELog EmptyString (Some (ErrOther "not a websocket handshake"))]).
Proof.
  assert (H : Get (header (sampleRequest "tok")) "Origin" ≠ "http://localhost:8080")
    by (vm_compute; discriminate).
  split; [exact H|]. split.
  - apply (proj1 (proj2 (Untokened_origin_decides (sampleRequest "tok") (connects 8)
                           connectedWorld)) H).
  - apply (proj1 (proj2 (Untokened_origin_decides (sampleRequest "tok")
                           (mkHandshake (Some (ErrOther "not a websocket handshake"))
                              (inl 8%positive)) connectedWorld)) H).
Defined.

Lemma serveWS_disconnects_nobody_witness :
  reachable sampleUnmarshal sampleMarshal connectedWorld ∧
  clients (manager connectedWorld) ⊆
    clients (manager (serveWS (sampleRequest "stale-key") 9 (connects 8)
                        connectedWorld).2).
Proof.
  split; [exact connectedWorld_reachable|].
  apply (serveWS_disconnects_nobody sampleUnmarshal sampleMarshal
           (sampleRequest "stale-key") 9 (connects 8) connectedWorld
           connectedWorld_reachable).
Defined.

Lemma only_the_write_loop_writes_witness :
  reachable sampleUnmarshal sampleMarshal connectedWorld ∧
  sent 7 (trace (readStep sampleUnmarshal sampleClient (inl msgChat) connectedWorld).2) =
    sent 7 (trace connectedWorld).
Proof.
  split; [exact connectedWorld_reachable|].
  apply (only_the_write_loop_writes sampleUnmarshal sampleMarshal 7%positive
           connectedWorld connectedWorld_reachable).
Defined.

Lemma readLoop_handles_in_order_witness :
  reachable sampleUnmarshal sampleMarshal connectedWorld ∧
  printedEvents
    (trace (readLoop sampleUnmarshal sampleClient
              [inl msgUnknown; inl msgChat; inl msgGarbage; inl msgChat]
              connectedWorld).2) =
    [mkEvent EventSendMessage payloadMF].
Proof.
  split; [exact connectedWorld_reachable|].
  etrans; [apply (readLoop_handles_in_order sampleUnmarshal sampleMarshal sampleClient
                    [inl msgUnknown; inl msgChat; inl msgGarbage; inl msgChat]
                    connectedWorld connectedWorld_reachable)|].
  vm_compute. reflexivity.
Defined.
